(** * Kruskal engine of graph-analysis-tool: a shallow embedding of
    [src/cpp/Graph.h] and [src/cpp/Graph.cpp], with the properties of
    the sort, the disjoint-set forest, the classic computation and the
    traced computation.

    Conventions of the embedding.
    - A C++ [int] is a [Z]; additions go through [add_int], the 32-bit
      two's complement addition (signed overflow is undefined in C++; the
      wrap-around is what the wasm target computes).
    - A function that may leave by an exception ([vector::at]), touch a
      vector outside its bounds ([operator[]]) or recurse without end
      returns [option]: [None] stands for "no normal return".
    - Recursions that are not structural ([sortEdges], [find_set]) take a
      fuel argument; the entry points pass a fuel computed from the state,
      and the theorems show that it is enough.
    - [std::map<string,int>] is a [gmap string Z]; [std::vector] is a
      list, indexed by [Z] through [vat] and [vget]/[vset]. *)

From Stdlib Require Import ZArith Lia List Permutation Sorted.
From Stdlib Require Import Ascii String DecimalString.
From stdpp Require Import base tactics option list gmap strings fin_maps.

Open Scope Z_scope.

(** ** Machine integers *)

Module Int32.

Definition modulus : Z := 2 ^ 32.
Definition max_int : Z := 2 ^ 31 - 1.
Definition min_int : Z := - 2 ^ 31.

(** Two's complement wrap-around of a mathematical integer. *)
Definition wrap (z : Z) : Z := (z + 2 ^ 31) mod modulus - 2 ^ 31.

Definition add_int (a b : Z) : Z := wrap (a + b).

(** [(int) v.size()] *)
Definition of_size (n : nat) : Z := wrap (Z.of_nat n).

Definition in_range (z : Z) : Prop := min_int <= z <= max_int.

End Int32.
Export Int32.

(** ** Vectors *)

Section Vectors.
Context {A : Type}.

(** [v.at(i)]: bounds-checked; the [int] index is converted to
    [size_t], so a negative one is out of range too. *)
Definition vat (v : list A) (i : Z) : option A :=
  if i <? 0 then None else v !! Z.to_nat i.

(** [v[i]] read: unchecked in C++, no normal return out of bounds. *)
Definition vget (v : list A) (i : Z) : option A := vat v i.

(** [v[i] = x]: unchecked in C++, no normal return out of bounds. *)
Definition vset (v : list A) (i : Z) (x : A) : option (list A) :=
  if (0 <=? i) && (i <? Z.of_nat (length v))
  then Some (<[Z.to_nat i := x]> v) else None.

(** [v.resize(n)] with an [int] argument: a negative [n] becomes a
    huge [size_t] and the allocation throws. *)
Definition vresize (n : Z) (d : A) (v : list A) : option (list A) :=
  if n <? 0 then None else Some (resize (Z.to_nat n) d v).

End Vectors.

(** ** Data model ([Graph.h]) *)

Record edge : Type := mkEdge {
  id : string;
  weight : Z;
  src : string;
  dst : string
}.

Record Graph : Type := mkGraph {
  numVertices : Z;
  numEdges : Z;
  parent : list Z;
  rnk : list Z;
  vertices : gmap string Z;
  edges : list edge
}.

Definition set_parent (p : list Z) (g : Graph) : Graph :=
  mkGraph (numVertices g) (numEdges g) p (rnk g) (vertices g) (edges g).

Definition set_rnk (r : list Z) (g : Graph) : Graph :=
  mkGraph (numVertices g) (numEdges g) (parent g) r (vertices g) (edges g).

Definition set_vertices (m : gmap string Z) (g : Graph) : Graph :=
  mkGraph (numVertices g) (numEdges g) (parent g) (rnk g) m (edges g).

Definition set_edges (es : list edge) (g : Graph) : Graph :=
  mkGraph (numVertices g) (numEdges g) (parent g) (rnk g) (vertices g) es.

(** [Graph::Graph(int v, int e)] *)
Definition new_Graph (v e : Z) : Graph := mkGraph v e [] [] ∅ [].

(** ** Sorting ([mergeEdges], [sortEdges], [sort]) *)

(** [Graph::mergeEdges]: the two cursors [i] and [j] are the two
    remaining suffixes.  The head of [v1] is taken only when its weight
    is strictly smaller; otherwise the head of [v2] is taken. *)
Fixpoint mergeEdges (v1 : list edge) : list edge -> list edge :=
  fix merge_right (v2 : list edge) : list edge :=
    match v1, v2 with
    | [], _ => v2
    | _, [] => v1
    | e1 :: t1, e2 :: t2 =>
        if weight e1 <? weight e2
        then e1 :: mergeEdges t1 v2
        else e2 :: merge_right t2
    end.

(** [Graph::sortEdges(v, low, hi)]. *)
Fixpoint sortEdges (fuel : nat) (v : list edge) (low hi : Z)
  : option (list edge) :=
  match fuel with
  | O => None
  | S fuel' =>
      if low =? hi then
        match vat v low with
        | Some e => Some [e]
        | None => None
        end
      else
        let mid := Z.quot (add_int low hi) 2 in
        match sortEdges fuel' v low mid with
        | None => None
        | Some lower =>
            match sortEdges fuel' v (add_int mid 1) hi with
            | None => None
            | Some upper => Some (mergeEdges lower upper)
            end
        end
  end.

(** Recursion depth given to [sortEdges] by [sort]: a range of [n]
    elements is halved at each level. *)
Definition sort_fuel (g : Graph) : nat := S (length (edges g)).

(** [Graph::sort] *)
Definition sort (g : Graph) : option Graph :=
  match edges g with
  | [] => Some g
  | _ :: _ =>
      match sortEdges (sort_fuel g) (edges g) 0
                      (add_int (of_size (length (edges g))) (-1)) with
      | Some sorted => Some (set_edges sorted g)
      | None => None
      end
  end.

(** ** Disjoint sets ([make_set], [find_set], [union_set]) *)

(** Body of the loop of [make_set] for one entry [kv] of the vertex
    map: [parent[vertex] = vertex; rnk[vertex] = 0]. *)
Definition make_set_step (st : option (list Z * list Z)) (kv : string * Z)
  : option (list Z * list Z) :=
  '(p, r) ← st;
  let vertex := kv.2 in
  p' ← vset p vertex vertex;
  r' ← vset r vertex 0;
  Some (p', r').

(** [Graph::make_set].  The loop visits the entries of the vertex map
    in the order of [map_to_list] ([std::map] visits them in key order);
    the writes of two entries either touch different slots or store the
    same values, so the order does not show in the result. *)
Definition make_set (g : Graph) : option Graph :=
  p0 ← vresize (numVertices g) 0 (parent g);
  r0 ← vresize (numVertices g) 0 (rnk g);
  '(p, r) ← foldl make_set_step (Some (p0, r0)) (map_to_list (vertices g));
  Some (set_rnk r (set_parent p g)).

(** [Graph::find_set], with path compression. *)
Fixpoint find_set (fuel : nat) (a : Z) (g : Graph) : option (Z * Graph) :=
  match fuel with
  | O => None
  | S fuel' =>
      pa ← vget (parent g) a;
      if pa =? a then Some (a, g)
      else
        '(r, g1) ← find_set fuel' pa g;
        p' ← vset (parent g1) a r;
        Some (r, set_parent p' g1)
  end.

(** Recursion depth given to [find_set]: a chain of parents never
    visits a slot twice. *)
Definition find_fuel (g : Graph) : nat := S (length (parent g)).

(** [Graph::union_set] *)
Definition union_set (a b : Z) (g : Graph) : option (bool * Graph) :=
  '(a, g1) ← find_set (find_fuel g) a g;
  '(b, g2) ← find_set (find_fuel g1) b g1;
  if a =? b then Some (false, g2)
  else
    ra ← vget (rnk g2) a;
    rb ← vget (rnk g2) b;
    let '(a, b) := if ra <? rb then (b, a) else (a, b) in
    p ← vset (parent g2) b a;
    let g3 := set_parent p g2 in
    ra ← vget (rnk g3) a;
    rb ← vget (rnk g3) b;
    if ra =? rb then
      r ← vset (rnk g3) a (add_int ra 1);
      Some (true, set_rnk r g3)
    else Some (true, g3).

(** ** Vertices and edges *)

(** [Graph::addVertex]: [std::map::emplace] inserts only when the key
    is absent. *)
Definition addVertex (vertexName : string) (vertexIndex : Z) (g : Graph)
  : Graph :=
  match vertices g !! vertexName with
  | Some _ => g
  | None => set_vertices (<[vertexName := vertexIndex]> (vertices g)) g
  end.

(** [Graph::getIndex] *)
Definition getIndex (g : Graph) (vertexName : string) : Z :=
  match vertices g !! vertexName with
  | None => -1
  | Some i => i
  end.

(** [Graph::addEdge] *)
Definition addEdge (edgeId : string) (w : Z) (s d : string) (g : Graph)
  : Graph :=
  set_edges (edges g ++ [mkEdge edgeId w s d]) g.

(** ** Classic computation ([mst]) *)

(** The loop of [Graph::mst] over the remaining edges [es]. *)
Fixpoint mst_loop (es : list edge) (g : Graph)
    (minimumSpanningTree : list edge) (cost : Z)
  : option (list edge * Z * Graph) :=
  match es with
  | [] => Some (minimumSpanningTree, cost, g)
  | e :: es' =>
      let a := getIndex g (src e) in
      let b := getIndex g (dst e) in
      if (0 <=? a) && (0 <=? b) then
        '(joined, g1) ← union_set a b g;
        if joined : bool
        then mst_loop es' g1 (minimumSpanningTree ++ [e])
                      (add_int cost (weight e))
        else mst_loop es' g1 minimumSpanningTree cost
      else mst_loop es' g minimumSpanningTree cost
  end.

(** [Graph::mst]: the result, the value left in [cost] and the engine. *)
Definition mst (g : Graph) : option (list edge * Z * Graph) :=
  g1 ← sort g;
  g2 ← make_set g1;
  mst_loop (edges g2) g2 [] 0.

(** ** Traced computation ([json_escape], [mst_steps_json]) *)

Definition dquote : ascii := "034"%char.
Definition backslash : ascii := "092"%char.
Definition newline : ascii := "010"%char.
Definition creturn : ascii := "013"%char.
Definition tab : ascii := "009"%char.

Definition str (c : ascii) : string := String c EmptyString.

(** One iteration of the [switch] of [Graph::json_escape]. *)
Definition escape_char (c : ascii) : string :=
  if Ascii.eqb c dquote then String backslash (str dquote)
  else if Ascii.eqb c backslash then String backslash (str backslash)
  else if Ascii.eqb c newline then String backslash "n"
  else if Ascii.eqb c creturn then String backslash "r"
  else if Ascii.eqb c tab then String backslash "t"
  else str c.

(** [Graph::json_escape] *)
Fixpoint json_escape (s : string) : string :=
  match s with
  | EmptyString => EmptyString
  | String c s' => escape_char c +:+ json_escape s'
  end.

(** [out << n] for an [int]. *)
Definition string_of_int (z : Z) : string :=
  NilZero.string_of_int (Z.to_int z).

(** A name between double quotes, as in the literal pieces of the
    output. *)
Definition quoted (s : string) : string := str dquote +:+ s +:+ str dquote.

(** The loop that prints a vector of identifiers, from index [i]. *)
Fixpoint emit_ids (i : nat) (ids : list string) : string :=
  match ids with
  | [] => EmptyString
  | x :: rest =>
      (match i with O => EmptyString | S _ => "," end)
      +:+ quoted (json_escape x) +:+ emit_ids (S i) rest
  end.

(** The local variables of [mst_steps_json] that live across the loop. *)
Record trace_state : Type := mkTrace {
  mstEdgeIds : list string;
  rejectedEdgeIds : list string;
  total : Z;
  first : bool;
  out : string
}.

(** The text printed for one edge, after the separator. *)
Definition emit_step (e : edge) (accepted : bool) (total : Z)
    (mstEdgeIds rejectedEdgeIds : list string) : string :=
  "{"
  +:+ quoted "consideredEdgeId" +:+ ":" +:+ quoted (json_escape (id e))
  +:+ ","
  +:+ quoted "action" +:+ ":"
  +:+ quoted (if accepted then "accept" else "reject") +:+ ","
  +:+ quoted "reason" +:+ ":"
  +:+ quoted (if accepted then "ok" else "cycle") +:+ ","
  +:+ quoted "totalWeight" +:+ ":" +:+ string_of_int total +:+ ","
  +:+ quoted "mstEdgeIds" +:+ ":[" +:+ emit_ids 0 mstEdgeIds +:+ "],"
  +:+ quoted "rejectedEdgeIds" +:+ ":[" +:+ emit_ids 0 rejectedEdgeIds
  +:+ "]"
  +:+ "}".

(** The loop of [Graph::mst_steps_json] over the remaining edges. *)
Fixpoint steps_loop (es : list edge) (g : Graph) (st : trace_state)
  : option (trace_state * Graph) :=
  match es with
  | [] => Some (st, g)
  | e :: es' =>
      let a := getIndex g (src e) in
      let b := getIndex g (dst e) in
      '(accepted, g1) ←
        (if (0 <=? a) && (0 <=? b) then union_set a b g
         else Some (false, g));
      let mstIds :=
        if accepted : bool then mstEdgeIds st ++ [id e] else mstEdgeIds st in
      let tot :=
        if accepted then add_int (total st) (weight e) else total st in
      let rejIds :=
        if accepted then rejectedEdgeIds st
        else rejectedEdgeIds st ++ [id e] in
      let o :=
        out st +:+ (if first st then EmptyString else ",")
        +:+ emit_step e accepted tot mstIds rejIds in
      steps_loop es' g1 (mkTrace mstIds rejIds tot false o)
  end.

(** [Graph::mst_steps_json]: the returned text and the engine. *)
Definition mst_steps_json (g : Graph) : option (string * Graph) :=
  g1 ← sort g;
  g2 ← make_set g1;
  '(st, g3) ←
    steps_loop (edges g2) g2
      (mkTrace [] [] 0 true ("{" +:+ quoted "steps" +:+ ":["));
  Some (out st +:+ "]," +:+ quoted "mstWeight" +:+ ":"
        +:+ string_of_int (total st) +:+ "}", g3).

(** * Specification vocabulary *)

Definition needs_escape (c : ascii) : bool :=
  Ascii.eqb c dquote || Ascii.eqb c backslash || Ascii.eqb c newline
  || Ascii.eqb c creturn || Ascii.eqb c tab.

Fixpoint chars (s : string) : list ascii :=
  match s with
  | EmptyString => []
  | String c s' => c :: chars s'
  end.

Definition le_weight (e1 e2 : edge) : Prop := weight e1 <= weight e2.
Definition lt_weight (e1 e2 : edge) : Prop := weight e1 < weight e2.

(** The edges of weight [w], in the order in which they occur. *)
Definition ties (w : Z) (l : list edge) : list edge :=
  List.filter (fun e => weight e =? w) l.

(** [v[low..hi]], both ends included. *)
Definition slice (v : list edge) (low hi : Z) : list edge :=
  take (Z.to_nat (hi - low + 1)) (drop (Z.to_nat low) v).

(** What [sortEdges] computes: a rearrangement in ascending order of
    weight in which the edges of one weight come out in the reverse of
    their order of arrival. *)
Definition rev_stable_sorted (l r : list edge) : Prop :=
  Permutation l r /\ StronglySorted le_weight r /\
  forall w, ties w r = rev (ties w l).

(** [root g a r]: following [parent] from [a] ends at the
    self-parented slot [r]. *)
Inductive root (g : Graph) : Z -> Z -> Prop :=
| root_self a : vat (parent g) a = Some a -> root g a a
| root_step a p r :
    vat (parent g) a = Some p -> p <> a -> root g p r -> root g a r.

(** Two slots lie in one component. *)
Definition same_set (g : Graph) (x y : Z) : Prop :=
  exists r, root g x r /\ root g y r.

Definition is_root (g : Graph) (j : Z) : bool :=
  match vat (parent g) j with
  | Some p => p =? j
  | None => false
  end.

(** Number of representatives among the slots of [dom]. *)
Definition roots (dom : list Z) (g : Graph) : nat :=
  length (List.filter (is_root g) dom).

Definition rk (g : Graph) (i : Z) : Z := default 0 (vat (rnk g) i).

(** The state of the forest that the operations maintain, over the
    slots [dom] initialised by [make_set]. *)
Record dsu_inv (dom : list Z) (g : Graph) : Prop := mk_dsu_inv {
  inv_nodup : NoDup dom;
  inv_len : length (rnk g) = length (parent g);
  inv_max : Z.of_nat (length (parent g)) <= max_int;
  inv_card : (length dom <= length (parent g))%nat;
  inv_range : forall i, In i dom -> 0 <= i < Z.of_nat (length (parent g));
  inv_parent : forall i p, In i dom -> vat (parent g) i = Some p -> In p dom;
  inv_rank : forall i p,
      In i dom -> vat (parent g) i = Some p -> p <> i -> rk g i < rk g p;
  inv_rank_bound : forall i,
      In i dom -> 0 <= rk g i /\
                  rk g i + Z.of_nat (roots dom g) <= Z.of_nat (length dom)
}.

(** What [find_set] may do to the engine: ranks, vertices and edges
    are kept, and a slot of [parent] either keeps its value or is a slot
    of [dom] that now points to its representative. *)
Record compress (dom : list Z) (g g' : Graph) : Prop := mk_compress {
  cp_rnk : rnk g' = rnk g;
  cp_vertices : vertices g' = vertices g;
  cp_edges : edges g' = edges g;
  cp_numVertices : numVertices g' = numVertices g;
  cp_numEdges : numEdges g' = numEdges g;
  cp_len : length (parent g') = length (parent g);
  cp_slot : forall j,
      vat (parent g') j = vat (parent g) j \/
      (In j dom /\ exists r, root g j r /\ r <> j /\
                             vat (parent g') j = Some r)
}.

(** The effect of the last lines of [union_set] on an engine [g1]:
    the representative [l] is attached under the representative [w],
    whose rank grows by one on a tie. *)
Record linked (g1 g2 : Graph) (w l : Z) : Prop := mk_linked {
  lk_parent : parent g2 = <[Z.to_nat l := w]> (parent g1);
  lk_rnk : rnk g2 = if rk g1 w =? rk g1 l
                    then <[Z.to_nat w := rk g1 w + 1]> (rnk g1)
                    else rnk g1;
  lk_vertices : vertices g2 = vertices g1;
  lk_edges : edges g2 = edges g1;
  lk_numVertices : numVertices g2 = numVertices g1;
  lk_numEdges : numEdges g2 = numEdges g1
}.

(** Representative after the link of [l] under [w]. *)
Definition relabel (w l r0 : Z) : Z := if r0 =? l then w else r0.

(** Outside of [dom] the vectors are left as they were; the vertex map
    and the edge list are not touched. *)
Record frame (dom : list Z) (g g' : Graph) : Prop := mk_frame {
  fr_vertices : vertices g' = vertices g;
  fr_edges : edges g' = edges g;
  fr_numVertices : numVertices g' = numVertices g;
  fr_numEdges : numEdges g' = numEdges g;
  fr_len_parent : length (parent g') = length (parent g);
  fr_len_rnk : length (rnk g') = length (rnk g);
  fr_parent : forall j, ~ In j dom -> vat (parent g') j = vat (parent g) j;
  fr_rnk : forall j, ~ In j dom -> vat (rnk g') j = vat (rnk g) j
}.

(** ** Vertices, well-formed engines *)

(** The slots initialised by [make_set]: the indices held by the
    vertex map, each once. *)
Definition registered (g : Graph) : list Z :=
  remove_dups ((map_to_list (vertices g)).*2).

(** What the callers guarantee: the vertex count is an [int] that is
    not negative, every registered index lies in [[0, numVertices)], and
    the edge list is short enough for the [int] arithmetic of
    [sortEdges]. *)
Definition wf_graph (g : Graph) : bool :=
  (0 <=? numVertices g) && (numVertices g <=? max_int)
  && forallb (fun i => (0 <=? i) && (i <? numVertices g)) (registered g)
  && (Z.of_nat (length (edges g)) <=? 2 ^ 30).

Definition endpoints (g : Graph) (e : edge) : Z * Z :=
  (getIndex g (src e), getIndex g (dst e)).

(** The test [a >= 0 && b >= 0] of both loops. *)
Definition resolvable (g : Graph) (e : edge) : bool :=
  (0 <=? getIndex g (src e)) && (0 <=? getIndex g (dst e)).

(** ** Connectivity *)

(** The naive closure of a list of pairs: the least equivalence that
    contains them. *)
Inductive conn (ps : list (Z * Z)) : Z -> Z -> Prop :=
| conn_refl x : conn ps x x
| conn_pair a b : In (a, b) ps -> conn ps a b
| conn_sym x y : conn ps x y -> conn ps y x
| conn_trans x y z : conn ps x y -> conn ps y z -> conn ps x z.

(** A list of pairs grown by joining, each time, two vertices that the
    pairs before do not connect. *)
Inductive forest : list (Z * Z) -> Prop :=
| forest_nil : forest []
| forest_snoc ps a b :
    forest ps -> ~ conn ps a b -> forest (ps ++ [(a, b)]).

(** Engines reached from [g0] by calls of [union_set] on slots of
    [dom], with the list of the calls made. *)
Inductive unions_from (dom : list Z) (g0 : Graph)
  : list (Z * Z) -> Graph -> Prop :=
| unions_none : unions_from dom g0 [] g0
| unions_more ops g a b res g' :
    unions_from dom g0 ops g -> In a dom -> In b dom ->
    union_set a b g = Some (res, g') ->
    unions_from dom g0 (ops ++ [(a, b)]) g'.

(** ** The decisions shared by the two loops *)

(** The verdict of each edge in turn, and the engine left behind:
    what [mst_loop] and [steps_loop] have in common. *)
Fixpoint decisions (es : list edge) (g : Graph)
  : option (list (edge * bool) * Graph) :=
  match es with
  | [] => Some ([], g)
  | e :: es' =>
      '(accepted, g1) ←
        (if resolvable g e
         then union_set (getIndex g (src e)) (getIndex g (dst e)) g
         else Some (false, g));
      '(rest, g2) ← decisions es' g1;
      Some ((e, accepted) :: rest, g2)
  end.

Definition accepted_edges (ds : list (edge * bool)) : list edge :=
  map fst (List.filter snd ds).

Definition cost_of (cost : Z) (ds : list (edge * bool)) : Z :=
  fold_left (fun (c : Z) (d : edge * bool) =>
               if snd d then add_int c (weight (fst d)) else c)
            ds cost.

(** One trace step, as data. *)
Record step : Type := mkStep {
  considered : edge;
  accepted : bool;
  totalWeight : Z;
  step_mstEdgeIds : list string;
  step_rejectedEdgeIds : list string
}.

Definition render_step (s : step) : string :=
  emit_step (considered s) (accepted s) (totalWeight s)
            (step_mstEdgeIds s) (step_rejectedEdgeIds s).

(** The steps, separated by commas. *)
Fixpoint emit_steps (first : bool) (ss : list step) : string :=
  match ss with
  | [] => EmptyString
  | s :: ss' =>
      (if first then EmptyString else ",") +:+ render_step s
      +:+ emit_steps false ss'
  end.

(** The whole document. *)
Definition render_trace (ss : list step) (mstWeight : Z) : string :=
  "{" +:+ quoted "steps" +:+ ":[" +:+ emit_steps true ss +:+ "],"
  +:+ quoted "mstWeight" +:+ ":" +:+ string_of_int mstWeight +:+ "}".

(** The accumulators after one verdict. *)
Definition next_step (prev : step) (d : edge * bool) : step :=
  let '(e, acc) := d in
  mkStep e acc
    (if acc then add_int (totalWeight prev) (weight e) else totalWeight prev)
    (if acc then step_mstEdgeIds prev ++ [id e] else step_mstEdgeIds prev)
    (if acc then step_rejectedEdgeIds prev
     else step_rejectedEdgeIds prev ++ [id e]).

(** The trace steps that a list of verdicts gives, after [prev]. *)
Fixpoint steps_of (prev : step) (ds : list (edge * bool)) : list step :=
  match ds with
  | [] => []
  | d :: ds' => next_step prev d :: steps_of (next_step prev d) ds'
  end.

(** The accumulators before the first edge. *)
Definition step0 : step := mkStep (mkEdge EmptyString 0 EmptyString EmptyString) false 0 [] [].


(** The local variables of [mst_steps_json] after one more verdict. *)
Definition advance (st : trace_state) (d : edge * bool) : trace_state :=
  let '(e, acc) := d in
  let mstIds := if acc then mstEdgeIds st ++ [id e] else mstEdgeIds st in
  let tot := if acc then add_int (total st) (weight e) else total st in
  let rejIds :=
    if acc then rejectedEdgeIds st else rejectedEdgeIds st ++ [id e] in
  mkTrace mstIds rejIds tot false
          (out st +:+ (if first st then EmptyString else ",")
           +:+ emit_step e acc tot mstIds rejIds).

(** The local variables of [mst_steps_json] after the verdicts [ds]. *)
Definition replay (st : trace_state) (ds : list (edge * bool)) : trace_state :=
  fold_left advance ds st.

(** What the loops maintain, on an engine [g] that started from the
    vertex map of [g0], after the verdicts [done]: the disjoint sets are
    the components of the accepted edges, which form a forest. *)
Record kruskal_inv (g0 g : Graph) (done : list (edge * bool)) : Prop :=
  mk_kruskal_inv {
  k_dsu : dsu_inv (registered g0) g;
  k_vertices : vertices g = vertices g0;
  k_forest : forest (map (endpoints g0) (accepted_edges done));
  k_same : forall x y,
      In x (registered g0) -> In y (registered g0) ->
      (same_set g x y <->
       conn (map (endpoints g0) (accepted_edges done)) x y);
  k_count : (length (accepted_edges done) + roots (registered g0) g)%nat
            = length (registered g0);
  k_resolvable : forall e, In (e, true) done -> resolvable g0 e = true
}.

(** ** Sample engines *)

(** Three vertices and the three edges of a triangle, of weights 1, 2
    and 3. *)
Definition triangle : Graph :=
  addEdge "e3" 3 "A" "C"
    (addEdge "e2" 2 "B" "C"
       (addEdge "e1" 1 "A" "B"
          (addVertex "C" 2 (addVertex "B" 1 (addVertex "A" 0 (new_Graph 3 3)))))).

(** [triangle] after [make_set]. *)
Definition triangle_sets : Graph :=
  set_rnk [0; 0; 0] (set_parent [0; 1; 2] triangle).

(** Two edges of the same weight, [eA] added before [eB]. *)
Definition tie_graph : Graph :=
  addEdge "eB" 5 "Y" "Z"
    (addEdge "eA" 5 "X" "Y"
       (addVertex "Z" 2 (addVertex "Y" 1 (addVertex "X" 0 (new_Graph 3 2))))).



(** One vertex and no edge. *)
Definition lonely : Graph := addVertex "A" 0 (new_Graph 1 0).

(** The text of a trace without steps. *)
Definition empty_trace_text : string :=
  "{" +:+ quoted "steps" +:+ ":[]," +:+ quoted "mstWeight" +:+ ":0}".

(** ** Vocabulary of the further properties *)

(** The sum of the weights of a list of edges, in the integers. *)
Definition sum_weights (l : list edge) : Z :=
  fold_right (fun e s => weight e + s) 0 l.

(** A sequence of calls of [addVertex], the first of the list first. *)
Definition add_vertices (regs : list (string * Z)) (g : Graph) : Graph :=
  fold_left (fun (g : Graph) (r : string * Z) => addVertex r.1 r.2 g) regs g.

(** The name and index of the first registration of [name] in a
    sequence of calls. *)
Definition first_registration (name : string) (regs : list (string * Z))
  : option (string * Z) :=
  List.find (fun r : string * Z => String.eqb r.1 name) regs.

(** The calls made by a caller that numbers the names in the order in
    which it meets them, from [k] on (from 0 in [parseGraphFromText]). *)
Fixpoint numbered_from (k : nat) (names : list string)
  : list (string * Z) :=
  match names with
  | [] => []
  | n :: names' => (n, Z.of_nat k) :: numbered_from (S k) names'
  end.

Definition numbered (names : list string) : list (string * Z) :=
  numbered_from 0 names.


(** The reading back of an escaped text (not a function of the
    engine: the inverse that shows that [json_escape] loses nothing). *)
Fixpoint json_unescape (s : string) : string :=
  match s with
  | EmptyString => EmptyString
  | String c rest =>
      if Ascii.eqb c backslash then
        match rest with
        | EmptyString => str c
        | String x rest' =>
            String (if Ascii.eqb x "n" then newline
                    else if Ascii.eqb x "r" then creturn
                    else if Ascii.eqb x "t" then tab
                    else x)
                   (json_unescape rest')
        end
      else String c (json_unescape rest)
  end.

(** Two ascending runs that share the weight 5. *)
Definition run_left : list edge :=
  [mkEdge "a" 1 "A" "B"; mkEdge "b" 5 "B" "C"].
Definition run_right : list edge :=
  [mkEdge "c" 5 "A" "C"; mkEdge "d" 7 "A" "B"].

(** Four vertices and no edge: room for two unions of rank 1 and one
    of rank 2. *)
Definition square : Graph :=
  addVertex "D" 3
    (addVertex "C" 2 (addVertex "B" 1 (addVertex "A" 0 (new_Graph 4 0)))).

(** [square] after [make_set]. *)
Definition square_sets : Graph :=
  set_rnk [0; 0; 0; 0] (set_parent [0; 1; 2; 3] square).

(** [square_sets] after [union_set 0 1] and [union_set 2 3]. *)
Definition square_pairs : Graph :=
  set_rnk [1; 0; 1; 0] (set_parent [0; 0; 2; 2] square).

(** [square_pairs] after [union_set 1 3]: slot 3 is two links away
    from its representative 0. *)
Definition square_joined : Graph :=
  set_rnk [2; 0; 1; 0] (set_parent [0; 0; 0; 2] square).

(** Three slots but two names: the second registration of [A] is
    dropped, so that no name has the index 1. *)
Definition gapped : Graph :=
  addVertex "B" 2 (addVertex "A" 1 (addVertex "A" 0 (new_Graph 3 0))).

(** [gapped] after [make_set]: slot 1 keeps the 0 of the resize. *)
Definition gapped_sets : Graph :=
  set_rnk [0; 0; 0] (set_parent [0; 0; 2] gapped).

(** * Properties *)

(** ** Machine integers *)

Lemma wrap_small (z : Z) : in_range z -> wrap z = z.
Proof.
  unfold in_range, min_int, max_int, wrap, modulus. intros H.
  rewrite Z.mod_small; lia.
Qed.

Lemma add_int_small (a b : Z) : in_range (a + b) -> add_int a b = a + b.
Proof. apply wrap_small. Qed.

(** ** Vectors *)

Section VectorFacts.
Context {A : Type}.
Implicit Types (v : list A) (i j : Z) (x : A).

Lemma vat_Some v i x :
  vat v i = Some x <-> 0 <= i /\ v !! Z.to_nat i = Some x.
Proof.
  unfold vat. destruct (Z.ltb_spec i 0); split; intros; try easy; lia.
Qed.

Lemma vat_bound v i x : vat v i = Some x -> 0 <= i < Z.of_nat (length v).
Proof.
  intros [H0 H]%vat_Some. apply lookup_lt_Some in H. lia.
Qed.

Lemma vat_is_Some v i : 0 <= i < Z.of_nat (length v) -> is_Some (vat v i).
Proof.
  intros H. unfold vat. destruct (Z.ltb_spec i 0); [lia|].
  apply lookup_lt_is_Some. lia.
Qed.

Lemma vset_Some v i x v' :
  vset v i x = Some v' <->
  0 <= i < Z.of_nat (length v) /\ v' = <[Z.to_nat i := x]> v.
Proof.
  unfold vset.
  destruct (Z.leb_spec 0 i), (Z.ltb_spec i (Z.of_nat (length v))); simpl;
    split; intros H1; try (destruct H1; lia); try discriminate.
  - inversion H1. split; [lia | reflexivity].
  - destruct H1 as [_ ->]. reflexivity.
Qed.

Lemma vset_in_range v i x :
  0 <= i < Z.of_nat (length v) -> vset v i x = Some (<[Z.to_nat i := x]> v).
Proof. intros H. apply vset_Some. auto. Qed.

Lemma vat_insert_eq v i x :
  0 <= i < Z.of_nat (length v) -> vat (<[Z.to_nat i := x]> v) i = Some x.
Proof.
  intros H. apply vat_Some. split; [lia|].
  apply list_lookup_insert_eq. lia.
Qed.

Lemma vat_insert_ne v i j x :
  0 <= i -> i <> j -> vat (<[Z.to_nat i := x]> v) j = vat v j.
Proof.
  intros H Hne. unfold vat. destruct (Z.ltb_spec j 0); [reflexivity|].
  apply list_lookup_insert_ne. lia.
Qed.

End VectorFacts.

(** ** String escaping *)

Lemma append_assoc (s1 s2 s3 : string) :
  (s1 +:+ s2) +:+ s3 = s1 +:+ (s2 +:+ s3).
Proof.
  induction s1 as [|c s1 IH]; [reflexivity|].
  change (String c ((s1 +:+ s2) +:+ s3) = String c (s1 +:+ s2 +:+ s3)).
  now f_equal.
Qed.

Lemma append_empty_r (s : string) : s +:+ EmptyString = s.
Proof.
  induction s as [|c s IH]; [reflexivity|].
  change (String c (s +:+ EmptyString) = String c s). now f_equal.
Qed.

Lemma append_cons (c : ascii) (s1 s2 : string) :
  String c s1 +:+ s2 = String c (s1 +:+ s2).
Proof. reflexivity. Qed.

Lemma json_escape_app (s1 s2 : string) :
  json_escape (s1 +:+ s2) = json_escape s1 +:+ json_escape s2.
Proof.
  induction s1 as [|c s1 IH]; [reflexivity|].
  rewrite append_cons. cbn [json_escape].
  rewrite IH. symmetry. apply append_assoc.
Qed.

Lemma escape_char_plain (c : ascii) :
  needs_escape c = false -> escape_char c = str c.
Proof.
  unfold needs_escape, escape_char. intros H.
  repeat (apply orb_false_elim in H; destruct H as [H ?]).
  now repeat match goal with E : Ascii.eqb _ _ = false |- _ => rewrite E; clear E end.
Qed.

Lemma json_escape_plain (s : string) :
  forallb (fun c => negb (needs_escape c)) (chars s) = true ->
  json_escape s = s.
Proof.
  induction s as [|c s IH]; [reflexivity|].
  cbn [json_escape chars forallb].
  intros [Hc Hs]%andb_prop. apply negb_true_iff in Hc.
  rewrite (escape_char_plain c Hc), (IH Hs). reflexivity.
Qed.

(** ** Vertex registration *)

Lemma addVertex_registered (name : string) (i : Z) (g : Graph) :
  is_Some (vertices g !! name) -> addVertex name i g = g.
Proof. intros [j Hj]. unfold addVertex. now rewrite Hj. Qed.

Lemma getIndex_addVertex_fresh (name : string) (i : Z) (g : Graph) :
  vertices g !! name = None -> getIndex (addVertex name i g) name = i.
Proof.
  intros H. unfold getIndex, addVertex. rewrite H. simpl.
  now rewrite lookup_insert_eq.
Qed.

(** ** Sorting *)

Lemma mergeEdges_nil_l (l : list edge) : mergeEdges [] l = l.
Proof. destruct l; reflexivity. Qed.

Lemma mergeEdges_nil_r (l : list edge) : mergeEdges l [] = l.
Proof. destruct l; reflexivity. Qed.

Lemma mergeEdges_cons (e1 e2 : edge) (t1 t2 : list edge) :
  mergeEdges (e1 :: t1) (e2 :: t2) =
  if weight e1 <? weight e2 then e1 :: mergeEdges t1 (e2 :: t2)
  else e2 :: mergeEdges (e1 :: t1) t2.
Proof. reflexivity. Qed.

Lemma mergeEdges_perm (l1 l2 : list edge) :
  Permutation (l1 ++ l2) (mergeEdges l1 l2).
Proof.
  revert l2. induction l1 as [|e1 t1 IH1]; intros l2;
    [now rewrite mergeEdges_nil_l|].
  induction l2 as [|e2 t2 IH2].
  - rewrite mergeEdges_nil_r, app_nil_r. reflexivity.
  - rewrite mergeEdges_cons. destruct (weight e1 <? weight e2).
    + simpl. constructor. apply IH1.
    + etransitivity; [symmetry; apply Permutation_middle|].
      constructor. apply IH2.
Qed.

Lemma mergeEdges_sorted (l1 l2 : list edge) :
  StronglySorted le_weight l1 -> StronglySorted le_weight l2 ->
  StronglySorted le_weight (mergeEdges l1 l2).
Proof.
  revert l2. induction l1 as [|e1 t1 IH1]; intros l2 H1 H2;
    [now rewrite mergeEdges_nil_l|].
  induction l2 as [|e2 t2 IH2]; [rewrite mergeEdges_nil_r; exact H1|].
  rewrite mergeEdges_cons.
  apply StronglySorted_inv in H1 as [H1 F1].
  apply StronglySorted_inv in H2 as [H2' F2].
  destruct (Z.ltb_spec (weight e1) (weight e2)) as [Hlt|Hge].
  - constructor; [apply IH1; [exact H1 | constructor; assumption]|].
    rewrite <- mergeEdges_perm. apply Forall_app. split; [exact F1|].
    constructor; [unfold le_weight; lia|].
    eapply List.Forall_impl; [|exact F2]. unfold le_weight. intros; simpl in *. lia.
  - constructor; [apply IH2; exact H2'|].
    rewrite <- mergeEdges_perm. rewrite Forall_app. split; [|exact F2].
    constructor; [unfold le_weight; lia|].
    eapply List.Forall_impl; [|exact F1]. unfold le_weight. intros; simpl in *. lia.
Qed.

Lemma ties_above (w : Z) (e : edge) (l : list edge) :
  w < weight e -> Forall (le_weight e) l -> ties w (e :: l) = [].
Proof.
  intros Hlt F. unfold ties. simpl.
  destruct (Z.eqb_spec (weight e) w); [lia|].
  induction F as [|x l Hx F IH]; [reflexivity|]. simpl.
  unfold le_weight in Hx. destruct (Z.eqb_spec (weight x) w); [lia | exact IH].
Qed.

Lemma ties_app (w : Z) (l1 l2 : list edge) :
  ties w (l1 ++ l2) = ties w l1 ++ ties w l2.
Proof. apply List.filter_app. Qed.

(** On equal weights the merge emits the right operand first. *)
Lemma mergeEdges_ties (w : Z) (l1 l2 : list edge) :
  StronglySorted le_weight l1 -> StronglySorted le_weight l2 ->
  ties w (mergeEdges l1 l2) = ties w l2 ++ ties w l1.
Proof.
  revert l2. induction l1 as [|e1 t1 IH1]; intros l2 H1 H2.
  - rewrite mergeEdges_nil_l. simpl. now rewrite app_nil_r.
  - induction l2 as [|e2 t2 IH2]; [now rewrite mergeEdges_nil_r|].
    rewrite mergeEdges_cons.
    pose proof H1 as H1'. pose proof H2 as H2'.
    apply StronglySorted_inv in H1' as [S1 F1].
    apply StronglySorted_inv in H2' as [S2 F2].
    destruct (Z.ltb_spec (weight e1) (weight e2)) as [Hlt|Hge].
    + change (ties w (e1 :: mergeEdges t1 (e2 :: t2)))
        with (if weight e1 =? w then e1 :: ties w (mergeEdges t1 (e2 :: t2))
              else ties w (mergeEdges t1 (e2 :: t2))).
      change (ties w (e1 :: t1))
        with (if weight e1 =? w then e1 :: ties w t1 else ties w t1).
      rewrite (IH1 _ S1 H2).
      destruct (Z.eqb_spec (weight e1) w) as [Heq|Hne]; [|reflexivity].
      rewrite (ties_above w e2 t2); [reflexivity | lia | exact F2].
    + change (ties w (e2 :: mergeEdges (e1 :: t1) t2))
        with (if weight e2 =? w then e2 :: ties w (mergeEdges (e1 :: t1) t2)
              else ties w (mergeEdges (e1 :: t1) t2)).
      change (ties w (e2 :: t2))
        with (if weight e2 =? w then e2 :: ties w t2 else ties w t2).
      rewrite (IH2 S2).
      destruct (weight e2 =? w); reflexivity.
Qed.

(** When every edge of the left operand is lighter than every edge of
    the right one, the merge is the concatenation. *)
Lemma mergeEdges_separated (l1 l2 : list edge) :
  Forall (fun x => Forall (lt_weight x) l2) l1 ->
  mergeEdges l1 l2 = l1 ++ l2.
Proof.
  induction 1 as [|e1 t1 He1 F IH]; [now rewrite mergeEdges_nil_l|].
  destruct l2 as [|e2 t2]; [now rewrite mergeEdges_nil_r, app_nil_r|].
  rewrite mergeEdges_cons.
  apply Forall_cons in He1 as He1'. destruct He1' as [Hlt _]. unfold lt_weight in Hlt.
  destruct (Z.ltb_spec (weight e1) (weight e2)); [|lia].
  simpl. f_equal. exact IH.
Qed.

Lemma slice_single (v : list edge) (low : Z) (e : edge) :
  vat v low = Some e -> slice v low low = [e].
Proof.
  intros [H0 H]%vat_Some. unfold slice.
  replace (Z.to_nat (low - low + 1)) with 1%nat by lia.
  rewrite <- (take_drop_middle v _ e H) at 1.
  rewrite drop_app_length'; [reflexivity|].
  rewrite length_take. apply lookup_lt_Some in H. lia.
Qed.

Lemma slice_split (v : list edge) (low mid hi : Z) :
  0 <= low <= mid -> mid < hi ->
  slice v low hi = slice v low mid ++ slice v (mid + 1) hi.
Proof.
  intros H1 H2. unfold slice.
  replace (Z.to_nat (hi - low + 1))
    with (Z.to_nat (mid - low + 1) + Z.to_nat (hi - (mid + 1) + 1))%nat by lia.
  rewrite <- take_take_drop, drop_drop. do 3 f_equal. lia.
Qed.

Lemma sortEdges_spec (fuel : nat) (v : list edge) (low hi : Z) :
  0 <= low <= hi -> hi < Z.of_nat (length v) ->
  Z.of_nat (length v) <= 2 ^ 30 ->
  hi - low < Z.of_nat fuel ->
  exists r, sortEdges fuel v low hi = Some r /\
            rev_stable_sorted (slice v low hi) r.
Proof.
  revert low hi. induction fuel as [|fuel IH]; intros low hi Hlo Hhi Hlen Hfuel;
    [lia|].
  cbn [sortEdges]. destruct (Z.eqb_spec low hi) as [->|Hne].
  - destruct (vat_is_Some v hi) as [e He]; [lia|]. rewrite He.
    exists [e]. split; [reflexivity|]. rewrite (slice_single _ _ _ He).
    split; [reflexivity|]. split; [repeat constructor|].
    intros w. unfold ties. simpl. now destruct (weight e =? w).
  - assert (Hadd : add_int low hi = low + hi).
    { apply add_int_small. unfold in_range, min_int, max_int. lia. }
    rewrite Hadd. rewrite Z.quot_div_nonneg by lia.
    set (mid := (low + hi) / 2).
    assert (Hmid : low <= mid < hi).
    { subst mid. split.
      - apply Z.div_le_lower_bound; lia.
      - apply Z.div_lt_upper_bound; lia. }
    assert (Hadd1 : add_int mid 1 = mid + 1).
    { apply add_int_small. unfold in_range, min_int, max_int. lia. }
    rewrite Hadd1.
    destruct (IH low mid) as (lower & -> & Pl & Sl & Tl); [lia..|].
    destruct (IH (mid + 1) hi) as (upper & -> & Pu & Su & Tu); [lia..|].
    exists (mergeEdges lower upper). split; [reflexivity|].
    rewrite (slice_split v low mid hi) by lia.
    repeat split.
    + rewrite <- mergeEdges_perm. now apply Permutation_app.
    + now apply mergeEdges_sorted.
    + intros w. rewrite mergeEdges_ties by assumption.
      rewrite ties_app, rev_app_distr, Tl, Tu. reflexivity.
Qed.

Lemma slice_all (v : list edge) :
  slice v 0 (Z.of_nat (length v) - 1) = v.
Proof.
  unfold slice. simpl. rewrite drop_0.
  apply take_ge. lia.
Qed.

(** [sort] returns, and what it stores. *)
Lemma sort_spec (g : Graph) :
  Z.of_nat (length (edges g)) <= 2 ^ 30 ->
  exists sorted, sort g = Some (set_edges sorted g) /\
                 rev_stable_sorted (edges g) sorted.
Proof.
  intros Hlen. unfold sort, sort_fuel.
  destruct (edges g) as [|e es] eqn:E.
  - exists []. split; [destruct g; simpl in *; now subst|].
    split; [reflexivity|]. split; [constructor | reflexivity].
  - rewrite <- E in *.
    assert (Hpos : 0 < Z.of_nat (length (edges g))) by (rewrite E; simpl; lia).
    assert (Hsz : of_size (length (edges g)) = Z.of_nat (length (edges g))).
    { apply wrap_small. unfold in_range, min_int, max_int. lia. }
    rewrite Hsz, add_int_small
      by (unfold in_range, min_int, max_int; lia).
    destruct (sortEdges_spec (S (length (edges g))) (edges g) 0
                (Z.of_nat (length (edges g)) + -1)) as (r & -> & Hr); [lia..|].
    exists r. split; [reflexivity|].
    replace (Z.of_nat (length (edges g)) + -1)
      with (Z.of_nat (length (edges g)) - 1) in Hr by lia.
    now rewrite slice_all in Hr.
Qed.

(** ** Disjoint sets: representatives *)

Lemma root_det (g : Graph) (a r r' : Z) :
  root g a r -> root g a r' -> r = r'.
Proof.
  induction 1 as [a Ha | a p r Ha Hne Hr IH]; intros H'.
  - inversion H' as [? Ha' | ? p' ? Ha' Hne' Hr']; subst; [reflexivity|].
    congruence.
  - inversion H' as [? Ha' | ? p' ? Ha' Hne' Hr']; subst; [congruence|].
    apply IH. congruence.
Qed.

Lemma root_is_root (g : Graph) (a r : Z) :
  root g a r -> vat (parent g) r = Some r.
Proof. induction 1; assumption. Qed.

Lemma root_of_root (g : Graph) (r x : Z) :
  vat (parent g) r = Some r -> root g r x -> x = r.
Proof.
  intros Hr H. symmetry. eapply root_det; [|exact H]. now constructor.
Qed.

Lemma is_root_true (g : Graph) (j : Z) :
  is_root g j = true <-> vat (parent g) j = Some j.
Proof.
  unfold is_root. destruct (vat (parent g) j) as [p|]; [|easy].
  rewrite Z.eqb_eq. split; congruence.
Qed.

Lemma same_set_refl_root (g : Graph) (x r : Z) : root g x r -> same_set g x x.
Proof. intros H. exists r. auto. Qed.

Lemma same_set_sym (g : Graph) (x y : Z) : same_set g x y -> same_set g y x.
Proof. intros (r & H1 & H2). exists r. auto. Qed.

Lemma same_set_trans (g : Graph) (x y z : Z) :
  same_set g x y -> same_set g y z -> same_set g x z.
Proof.
  intros (r & H1 & H2) (r' & H3 & H4).
  rewrite (root_det _ _ _ _ H2 H3) in H1. exists r'. auto.
Qed.

Lemma compress_refl (dom : list Z) (g : Graph) : compress dom g g.
Proof. constructor; auto. Qed.

Section Compress.
Variables (dom : list Z) (g g' : Graph).
Hypothesis C : compress dom g g'.

Lemma compress_is_root (j : Z) :
  vat (parent g') j = Some j <-> vat (parent g) j = Some j.
Proof.
  destruct (cp_slot _ _ _ C j) as [E | (_ & r & Hr & Hne & E)].
  - now rewrite E.
  - split; intros H.
    + congruence.
    + apply (root_of_root g j r H) in Hr. congruence.
Qed.

Lemma compress_root_fwd (x r : Z) : root g x r -> root g' x r.
Proof.
  induction 1 as [a Ha | a p r Ha Hne Hr IH].
  - constructor. now apply compress_is_root.
  - destruct (cp_slot _ _ _ C a) as [E | (_ & r' & Hr' & Hne' & E)].
    + eapply root_step; [rewrite E; exact Ha | exact Hne | exact IH].
    + assert (r' = r).
      { eapply root_det; [exact Hr'|]. eapply root_step; eassumption. }
      subst r'. eapply root_step; [exact E | exact Hne'|].
      constructor. apply compress_is_root. eapply root_is_root, Hr.
Qed.

Lemma compress_root_bwd (x r : Z) : root g' x r -> root g x r.
Proof.
  induction 1 as [a Ha | a p r Ha Hne Hr IH].
  - constructor. now apply compress_is_root.
  - destruct (cp_slot _ _ _ C a) as [E | (_ & r' & Hr' & Hne' & E)].
    + eapply root_step; [rewrite <- E; exact Ha | exact Hne | exact IH].
    + assert (p = r') by congruence. subst p.
      assert (r = r').
      { eapply root_of_root; [|exact IH]. eapply root_is_root, Hr'. }
      now subst r.
Qed.

Lemma compress_root (x r : Z) : root g' x r <-> root g x r.
Proof. split; [apply compress_root_bwd | apply compress_root_fwd]. Qed.

Lemma compress_same_set (x y : Z) : same_set g' x y <-> same_set g x y.
Proof.
  unfold same_set. split; intros (r & H1 & H2); exists r;
    split; apply compress_root; assumption.
Qed.

Lemma compress_rk (i : Z) : rk g' i = rk g i.
Proof. unfold rk. now rewrite (cp_rnk _ _ _ C). Qed.

Lemma compress_roots : roots dom g' = roots dom g.
Proof.
  unfold roots. f_equal. apply List.filter_ext. intros j.
  apply eq_true_iff_eq. rewrite !is_root_true. apply compress_is_root.
Qed.

End Compress.

Section Invariant.
Variable dom : list Z.

Lemma root_rank (g : Graph) (a r : Z) :
  dsu_inv dom g -> In a dom -> root g a r ->
  In r dom /\ rk g a <= rk g r /\ (r <> a -> rk g a < rk g r).
Proof.
  intros I Ha H. induction H as [a Hp | a p r Hp Hne Hr IH].
  - split; [exact Ha|]. split; [lia | congruence].
  - assert (Hin : In p dom) by (eapply inv_parent; eassumption).
    destruct (IH Hin) as (Hr' & Hle & _).
    pose proof (inv_rank _ _ I a p Ha Hp Hne).
    split; [exact Hr'|]. split; lia.
Qed.

Lemma compress_inv (g g' : Graph) :
  dsu_inv dom g -> compress dom g g' -> dsu_inv dom g'.
Proof.
  intros I C. constructor.
  - exact (inv_nodup _ _ I).
  - rewrite (cp_rnk _ _ _ C), (cp_len _ _ _ C). exact (inv_len _ _ I).
  - rewrite (cp_len _ _ _ C). exact (inv_max _ _ I).
  - rewrite (cp_len _ _ _ C). exact (inv_card _ _ I).
  - rewrite (cp_len _ _ _ C). exact (inv_range _ _ I).
  - intros i p Hi Hp.
    destruct (cp_slot _ _ _ C i) as [E | (_ & r & Hr & Hne & E)].
    + rewrite E in Hp. eapply inv_parent; eassumption.
    + assert (p = r) by congruence. subst p.
      eapply root_rank; eassumption.
  - intros i p Hi Hp Hne. rewrite !(compress_rk _ _ _ C).
    destruct (cp_slot _ _ _ C i) as [E | (_ & r & Hr & Hne' & E)].
    + rewrite E in Hp. eapply inv_rank; eassumption.
    + assert (p = r) by congruence. subst p.
      eapply root_rank; eassumption.
  - intros i Hi. rewrite (compress_rk _ _ _ C), (compress_roots _ _ _ C).
    exact (inv_rank_bound _ _ I i Hi).
Qed.

Lemma compress_trans (g1 g2 g3 : Graph) :
  compress dom g1 g2 -> compress dom g2 g3 -> compress dom g1 g3.
Proof.
  intros C1 C2. constructor.
  - rewrite (cp_rnk _ _ _ C2). apply C1.
  - rewrite (cp_vertices _ _ _ C2). apply C1.
  - rewrite (cp_edges _ _ _ C2). apply C1.
  - rewrite (cp_numVertices _ _ _ C2). apply C1.
  - rewrite (cp_numEdges _ _ _ C2). apply C1.
  - rewrite (cp_len _ _ _ C2). apply C1.
  - intros j.
    destruct (cp_slot _ _ _ C2 j) as [E | (Hj & r & Hr & Hne & E)].
    + rewrite E. apply (cp_slot _ _ _ C1).
    + right. split; [exact Hj|]. exists r.
      split; [|split; assumption].
      now apply (compress_root _ _ _ C1).
Qed.

(** [find_set] returns the representative and only compresses. *)
Lemma find_set_spec (fuel : nat) :
  forall (a : Z) (g : Graph),
    dsu_inv dom g -> In a dom ->
    Z.of_nat (length dom) - rk g a < Z.of_nat fuel ->
    exists r g', find_set fuel a g = Some (r, g') /\
                 root g a r /\ compress dom g g'.
Proof.
  induction fuel as [|fuel IH]; intros a g I Ha Hfuel.
  - pose proof (inv_rank_bound _ _ I a Ha). lia.
  - pose proof (inv_range _ _ I a Ha) as Hrange.
    destruct (vat_is_Some (parent g) a Hrange) as [pa Hpa].
    cbn [find_set]. unfold vget. rewrite Hpa. cbn [mbind option_bind].
    destruct (Z.eqb_spec pa a) as [->|Hne].
    + exists a, g. split; [reflexivity|].
      split; [now constructor | apply compress_refl].
    + assert (Hin : In pa dom) by (eapply inv_parent; eassumption).
      pose proof (inv_rank _ _ I a pa Ha Hpa Hne) as Hlt.
      destruct (IH pa g I Hin) as (r & g1 & -> & Hr & C); [lia|].
      cbn [mbind option_bind].
      rewrite vset_in_range by (rewrite (cp_len _ _ _ C); exact Hrange).
      cbn [mbind option_bind].
      eexists _, _. split; [reflexivity|].
      assert (Hroot : root g a r) by (eapply root_step; eassumption).
      split; [exact Hroot|].
      destruct (root_rank g pa r I Hin Hr) as (_ & Hle & _).
      constructor; cbn; try apply C.
      * rewrite length_insert. apply C.
      * intros j. destruct (Z.eq_dec j a) as [->|Hja].
        -- right. split; [exact Ha|]. exists r.
           split; [exact Hroot|]. split; [intros ->; lia|].
           apply vat_insert_eq. rewrite (cp_len _ _ _ C). exact Hrange.
        -- rewrite vat_insert_ne by (lia || congruence).
           apply (cp_slot _ _ _ C).
Qed.

Lemma find_fuel_enough (g : Graph) (a : Z) :
  dsu_inv dom g -> In a dom ->
  Z.of_nat (length dom) - rk g a < Z.of_nat (find_fuel g).
Proof.
  intros I Ha. unfold find_fuel.
  pose proof (inv_rank_bound _ _ I a Ha). pose proof (inv_card _ _ I). lia.
Qed.

Lemma root_total (g : Graph) (a : Z) :
  dsu_inv dom g -> In a dom -> exists r, root g a r.
Proof.
  intros I Ha.
  destruct (find_set_spec (find_fuel g) a g I Ha (find_fuel_enough g a I Ha))
    as (r & _ & _ & Hr & _).
  now exists r.
Qed.

End Invariant.

Lemma filter_length_remove (P P' : Z -> bool) (l : list Z) (x : Z) :
  NoDup l -> In x l -> P x = true -> P' x = false ->
  (forall j, j <> x -> P' j = P j) ->
  length (List.filter P l) = S (length (List.filter P' l)).
Proof.
  intros ND Hin HP HP' Hother.
  induction l as [|y l IH]; [destruct Hin|].
  apply NoDup_cons in ND as [Hy ND]. rewrite list_elem_of_In in Hy.
  destruct (Z.eq_dec y x) as [->|Hne].
  - simpl. rewrite HP, HP'. simpl. f_equal. f_equal.
    apply List.filter_ext_in. intros j Hj. symmetry. apply Hother.
    intros ->. contradiction.
  - destruct Hin as [->|Hin]; [congruence|].
    simpl. rewrite (Hother y Hne). destruct (P y); simpl; rewrite (IH ND Hin);
      reflexivity.
Qed.

Lemma filter_length_pos (P : Z -> bool) (l : list Z) (x : Z) :
  In x l -> P x = true -> (1 <= length (List.filter P l))%nat.
Proof.
  intros Hin HP. assert (H : In x (List.filter P l)) by (apply List.filter_In; auto).
  destruct (List.filter P l); [destruct H | simpl; lia].
Qed.

Section Link.
Variables (dom : list Z) (g1 g2 : Graph) (w l : Z).
Hypothesis I : dsu_inv dom g1.
Hypothesis Hw : In w dom.
Hypothesis Hl : In l dom.
Hypothesis Hwl : w <> l.
Hypothesis Rw : vat (parent g1) w = Some w.
Hypothesis Rl : vat (parent g1) l = Some l.
Hypothesis Hrank : rk g1 l <= rk g1 w.
Hypothesis L : linked g1 g2 w l.

Lemma link_parent_l : vat (parent g2) l = Some w.
Proof.
  rewrite (lk_parent _ _ _ _ L). apply vat_insert_eq.
  exact (inv_range _ _ I l Hl).
Qed.

Lemma link_parent_other (j : Z) :
  j <> l -> vat (parent g2) j = vat (parent g1) j.
Proof.
  intros Hj. rewrite (lk_parent _ _ _ _ L). apply vat_insert_ne.
  - pose proof (inv_range _ _ I l Hl). lia.
  - congruence.
Qed.

Lemma link_rk_other (j : Z) : j <> w -> rk g2 j = rk g1 j.
Proof.
  intros Hj. unfold rk at 1. rewrite (lk_rnk _ _ _ _ L).
  destruct (rk g1 w =? rk g1 l); [|reflexivity].
  rewrite vat_insert_ne; [reflexivity | | congruence].
  pose proof (inv_range _ _ I w Hw). lia.
Qed.

Lemma link_rk_w :
  rk g2 w = if rk g1 w =? rk g1 l then rk g1 w + 1 else rk g1 w.
Proof.
  unfold rk at 1. rewrite (lk_rnk _ _ _ _ L).
  destruct (rk g1 w =? rk g1 l); [|reflexivity].
  rewrite vat_insert_eq; [reflexivity|].
  rewrite (inv_len _ _ I). exact (inv_range _ _ I w Hw).
Qed.

Lemma link_rk_mono (j : Z) : rk g1 j <= rk g2 j <= rk g1 j + 1.
Proof.
  destruct (Z.eq_dec j w) as [->|Hj].
  - rewrite link_rk_w. destruct (rk g1 w =? rk g1 l); lia.
  - rewrite (link_rk_other j Hj). lia.
Qed.

Lemma link_roots : roots dom g1 = S (roots dom g2).
Proof.
  unfold roots. apply (filter_length_remove _ _ dom l).
  - exact (inv_nodup _ _ I).
  - exact Hl.
  - now apply is_root_true.
  - apply not_true_is_false. rewrite is_root_true, link_parent_l. congruence.
  - intros j Hj. unfold is_root. now rewrite (link_parent_other j Hj).
Qed.

Lemma link_inv : dsu_inv dom g2.
Proof.
  constructor.
  - exact (inv_nodup _ _ I).
  - rewrite (lk_parent _ _ _ _ L), (lk_rnk _ _ _ _ L).
    destruct (rk g1 w =? rk g1 l); rewrite ?length_insert;
      exact (inv_len _ _ I).
  - rewrite (lk_parent _ _ _ _ L), length_insert. exact (inv_max _ _ I).
  - rewrite (lk_parent _ _ _ _ L), length_insert. exact (inv_card _ _ I).
  - rewrite (lk_parent _ _ _ _ L), length_insert. exact (inv_range _ _ I).
  - intros i p Hi Hp. destruct (Z.eq_dec i l) as [->|Hne].
    + rewrite link_parent_l in Hp. congruence.
    + rewrite (link_parent_other i Hne) in Hp. eapply inv_parent; eassumption.
  - intros i p Hi Hp Hne. destruct (Z.eq_dec i l) as [->|Hil].
    + rewrite link_parent_l in Hp. assert (p = w) by congruence. subst p.
      rewrite (link_rk_other l) by congruence. rewrite link_rk_w.
      destruct (Z.eqb_spec (rk g1 w) (rk g1 l)); lia.
    + rewrite (link_parent_other i Hil) in Hp.
      assert (i <> w) by (intros ->; congruence).
      rewrite (link_rk_other i) by assumption.
      pose proof (inv_rank _ _ I i p Hi Hp Hne).
      pose proof (link_rk_mono p). lia.
  - intros i Hi. pose proof (inv_rank_bound _ _ I i Hi) as [H0 Hb].
    pose proof link_roots as HR.
    destruct (Z.eq_dec i w) as [->|Hiw].
    + rewrite link_rk_w. destruct (rk g1 w =? rk g1 l); lia.
    + rewrite (link_rk_other i Hiw). lia.
Qed.

Lemma link_root_fwd (x r0 : Z) : root g1 x r0 -> root g2 x (relabel w l r0).
Proof.
  induction 1 as [a Ha | a p r Ha Hne Hr IH]; unfold relabel in *.
  - destruct (Z.eqb_spec a l) as [->|Hal].
    + eapply root_step; [apply link_parent_l | exact Hwl|].
      constructor. rewrite link_parent_other by exact Hwl. exact Rw.
    + constructor. now rewrite link_parent_other.
  - assert (a <> l) by (intros ->; congruence).
    eapply root_step; [|exact Hne | exact IH].
    now rewrite link_parent_other.
Qed.

Lemma link_root (x r : Z) :
  In x dom ->
  root g2 x r <-> exists r0, root g1 x r0 /\ r = relabel w l r0.
Proof.
  intros Hx. split.
  - intros H. destruct (root_total dom g1 x I Hx) as [r0 Hr0].
    exists r0. split; [exact Hr0|].
    eapply root_det; [exact H | now apply link_root_fwd].
  - intros (r0 & Hr0 & ->). now apply link_root_fwd.
Qed.

(** Exactly the components of [w] and [l] are merged. *)
Lemma link_same_set (x y : Z) :
  In x dom -> In y dom ->
  same_set g2 x y <->
  same_set g1 x y \/ (same_set g1 x w /\ same_set g1 l y)
  \/ (same_set g1 x l /\ same_set g1 w y).
Proof.
  intros Hx Hy.
  assert (Sw : root g1 w w) by now constructor.
  assert (Sl : root g1 l l) by now constructor.
  assert (Ew : relabel w l w = w).
  { unfold relabel. destruct (Z.eqb_spec w l); congruence. }
  assert (El : relabel w l l = w).
  { unfold relabel. now rewrite Z.eqb_refl. }
  split.
  - intros (r & H1 & H2).
    apply link_root in H1 as (rx & Hrx & E1); [|exact Hx].
    apply link_root in H2 as (ry & Hry & E2); [|exact Hy].
    unfold relabel in *.
    destruct (Z.eqb_spec rx l) as [->|Hx'], (Z.eqb_spec ry l) as [->|Hy'].
    + left. exists l. auto.
    + subst r. subst ry. right. right. split; [exists l | exists w]; auto.
    + subst r. subst rx. right. left. split; [exists w | exists l]; auto.
    + left. exists rx. split; [exact Hrx|].
      assert (ry = rx) by congruence. congruence.
  - intros [(r & H1 & H2) | [[(r1 & H1 & H1') (r2 & H2 & H2')]
                            | [(r1 & H1 & H1') (r2 & H2 & H2')]]].
    + exists (relabel w l r). split; now apply link_root_fwd.
    + assert (r1 = w) by exact (root_det _ _ _ _ H1' Sw).
      assert (r2 = l) by exact (root_det _ _ _ _ H2 Sl).
      subst. exists w. split.
      * rewrite <- Ew. now apply link_root_fwd.
      * rewrite <- El. now apply link_root_fwd.
    + assert (r1 = l) by exact (root_det _ _ _ _ H1' Sl).
      assert (r2 = w) by exact (root_det _ _ _ _ H2 Sw).
      subst. exists w. split.
      * rewrite <- El. now apply link_root_fwd.
      * rewrite <- Ew. now apply link_root_fwd.
Qed.

End Link.

Lemma frame_refl (dom : list Z) (g : Graph) : frame dom g g.
Proof. constructor; auto. Qed.

Lemma frame_trans (dom : list Z) (g1 g2 g3 : Graph) :
  frame dom g1 g2 -> frame dom g2 g3 -> frame dom g1 g3.
Proof.
  intros [] []. constructor; try congruence.
  - intros j Hj. rewrite fr_parent1, fr_parent0; auto.
  - intros j Hj. rewrite fr_rnk1, fr_rnk0; auto.
Qed.

Lemma compress_frame (dom : list Z) (g g' : Graph) :
  compress dom g g' -> frame dom g g'.
Proof.
  intros C. constructor; try apply C.
  - now rewrite (cp_rnk _ _ _ C).
  - intros j Hj. destruct (cp_slot _ _ _ C j) as [E | (Hin & _)];
      [exact E | contradiction].
  - intros j Hj. now rewrite (cp_rnk _ _ _ C).
Qed.

Lemma linked_frame (dom : list Z) (g1 g2 : Graph) (w l : Z) :
  0 <= w -> 0 <= l -> In w dom -> In l dom ->
  linked g1 g2 w l -> frame dom g1 g2.
Proof.
  intros H0w H0l Hw Hl L. constructor; try apply L.
  - rewrite (lk_parent _ _ _ _ L). apply length_insert.
  - rewrite (lk_rnk _ _ _ _ L).
    destruct (rk g1 w =? rk g1 l); rewrite ?length_insert; reflexivity.
  - intros j Hj. rewrite (lk_parent _ _ _ _ L).
    apply vat_insert_ne; [exact H0l | congruence].
  - intros j Hj. rewrite (lk_rnk _ _ _ _ L).
    destruct (rk g1 w =? rk g1 l); [|reflexivity].
    apply vat_insert_ne; [exact H0w | congruence].
Qed.

Section Union.
Variable dom : list Z.

Lemma vat_rk (g : Graph) (i : Z) :
  dsu_inv dom g -> In i dom -> vat (rnk g) i = Some (rk g i).
Proof.
  intros I Hi. unfold rk.
  destruct (vat_is_Some (rnk g) i) as [x ->]; [|reflexivity].
  rewrite (inv_len _ _ I). exact (inv_range _ _ I i Hi).
Qed.

(** The two cases of [union_set]. *)
Lemma union_set_spec (g : Graph) (a b : Z) :
  dsu_inv dom g -> In a dom -> In b dom ->
  exists ra rb g1,
    root g a ra /\ root g b rb /\ compress dom g g1 /\
    ((ra = rb /\ union_set a b g = Some (false, g1)) \/
     (ra <> rb /\ exists g2,
         union_set a b g = Some (true, g2) /\
         linked g1 g2 (if rk g ra <? rk g rb then rb else ra)
                      (if rk g ra <? rk g rb then ra else rb))).
Proof.
  intros I Ha Hb. unfold union_set.
  destruct (find_set_spec dom _ a g I Ha (find_fuel_enough dom g a I Ha))
    as (ra & g0 & -> & Hra & C0).
  cbn [mbind option_bind].
  pose proof (compress_inv dom _ _ I C0) as I0.
  destruct (find_set_spec dom _ b g0 I0 Hb (find_fuel_enough dom g0 b I0 Hb))
    as (rb & g1 & -> & Hrb & C1).
  cbn [mbind option_bind].
  apply (compress_root _ _ _ C0) in Hrb.
  pose proof (compress_trans dom _ _ _ C0 C1) as C.
  pose proof (compress_inv dom _ _ I C) as I1.
  exists ra, rb, g1. do 3 (split; [assumption|]).
  destruct (Z.eqb_spec ra rb) as [E|Hne]; [left; auto|].
  right. split; [exact Hne|].
  destruct (root_rank dom g a ra I Ha Hra) as (Dra & _).
  destruct (root_rank dom g b rb I Hb Hrb) as (Drb & _).
  unfold vget. rewrite (vat_rk g1 ra I1 Dra), (vat_rk g1 rb I1 Drb).
  cbn [mbind option_bind].
  rewrite !(compress_rk _ _ _ C).
  set (w := if rk g ra <? rk g rb then rb else ra).
  set (l := if rk g ra <? rk g rb then ra else rb).
  assert (Dw : In w dom) by (subst w; destruct (rk g ra <? rk g rb); auto).
  assert (Dl : In l dom) by (subst l; destruct (rk g ra <? rk g rb); auto).
  assert (E : (if rk g ra <? rk g rb then (rb, ra) else (ra, rb)) = (w, l))
    by (subst w l; destruct (rk g ra <? rk g rb); reflexivity).
  rewrite E. clear E.
  rewrite (vset_in_range (parent g1) l w) by exact (inv_range _ _ I1 l Dl).
  cbn [mbind option_bind rnk set_parent].
  rewrite (vat_rk g1 w I1 Dw), (vat_rk g1 l I1 Dl).
  cbn [mbind option_bind].
  assert (Rw : is_root g1 w = true).
  { apply is_root_true, (compress_is_root _ _ _ C).
    subst w. destruct (rk g ra <? rk g rb); eapply root_is_root; eassumption. }
  destruct (Z.eqb_spec (rk g1 w) (rk g1 l)) as [Etie|Hntie].
  - assert (Hadd : add_int (rk g1 w) 1 = rk g1 w + 1).
    { apply add_int_small.
      pose proof (inv_rank_bound _ _ I1 w Dw) as [H0 Hb'].
      pose proof (filter_length_pos _ dom w Dw Rw) as Hpos.
      fold (roots dom g1) in Hpos.
      pose proof (inv_card _ _ I1). pose proof (inv_max _ _ I1).
      unfold in_range, min_int, max_int in *. lia. }
    rewrite Hadd.
    rewrite vset_in_range
      by (rewrite (inv_len _ _ I1); exact (inv_range _ _ I1 w Dw)).
    cbn [mbind option_bind].
    eexists. split; [reflexivity|].
    constructor; cbn; try reflexivity.
    rewrite Etie, Z.eqb_refl. reflexivity.
  - eexists. split; [reflexivity|].
    constructor; cbn; try reflexivity.
    destruct (Z.eqb_spec (rk g1 w) (rk g1 l)); [contradiction | reflexivity].
Qed.

End Union.

(** ** Connectivity *)

Lemma conn_mono (ps ps' : list (Z * Z)) (x y : Z) :
  (forall p, In p ps -> In p ps') -> conn ps x y -> conn ps' x y.
Proof.
  intros Hincl. induction 1.
  - apply conn_refl.
  - apply conn_pair. auto.
  - now apply conn_sym.
  - eapply conn_trans; eassumption.
Qed.

Lemma conn_nil (x y : Z) : conn [] x y -> x = y.
Proof. induction 1; [reflexivity | contradiction | congruence | congruence]. Qed.

(** Connectivity after one more pair. *)
Lemma conn_snoc (ps : list (Z * Z)) (a b x y : Z) :
  conn (ps ++ [(a, b)]) x y <->
  conn ps x y \/ (conn ps x a /\ conn ps b y) \/ (conn ps x b /\ conn ps a y).
Proof.
  split.
  - induction 1 as [x | c d Hin | x y H IH | x y z H1 IH1 H2 IH2].
    + left. apply conn_refl.
    + apply in_app_or in Hin as [Hin | [E | []]].
      * left. now apply conn_pair.
      * inversion E; subst. right. left. split; apply conn_refl.
      + destruct IH as [IH | [[IHa IHb] | [IHa IHb]]].
      * left. now apply conn_sym.
      * right. right. split; now apply conn_sym.
      * right. left. split; now apply conn_sym.
    + destruct IH1 as [L1 | [[A1 B1] | [A1 B1]]],
               IH2 as [L2 | [[A2 B2] | [A2 B2]]];
        first [ left; solve [eauto 6 using conn_sym, conn_trans]
              | right; left; split; solve [eauto 6 using conn_sym, conn_trans]
              | right; right; split;
                solve [eauto 6 using conn_sym, conn_trans] ].
  - assert (Hab : conn (ps ++ [(a, b)]) a b).
    { apply conn_pair, in_or_app. right. now left. }
    assert (Hm : forall u v, conn ps u v -> conn (ps ++ [(a, b)]) u v).
    { intros u v. apply conn_mono. intros p Hp. apply in_or_app. now left. }
    intros [H | [[H1 H2] | [H1 H2]]].
    + now apply Hm.
    + eapply conn_trans; [apply Hm, H1|].
      eapply conn_trans; [exact Hab | apply Hm, H2].
    + eapply conn_trans; [apply Hm, H1|].
      eapply conn_trans; [apply conn_sym, Hab | apply Hm, H2].
Qed.

Lemma conn_snoc_connected (ps : list (Z * Z)) (a b x y : Z) :
  conn ps a b -> conn (ps ++ [(a, b)]) x y <-> conn ps x y.
Proof.
  intros Hab. rewrite conn_snoc. split; [|auto].
  intros [H | [[H1 H2] | [H1 H2]]]; [assumption | |].
  - eapply conn_trans; [exact H1|]. eapply conn_trans; eassumption.
  - eapply conn_trans; [exact H1|].
    eapply conn_trans; [apply conn_sym; exact Hab | exact H2].
Qed.

(** In a forest every pair is a bridge: the others do not connect its
    ends, so no cycle runs through it. *)
Lemma forest_bridge (ps : list (Z * Z)) :
  forest ps ->
  forall l1 l2 a b, ps = l1 ++ (a, b) :: l2 -> ~ conn (l1 ++ l2) a b.
Proof.
  induction 1 as [|ps c d F IH Hcd]; intros l1 l2 a b E.
  - destruct l1; discriminate.
  - destruct l2 as [|p l2 _] using rev_ind.
    + apply app_inj_tail in E as [-> E]. inversion E; subst.
      now rewrite app_nil_r.
    + rewrite app_comm_cons, app_assoc in E.
      apply app_inj_tail in E as [-> <-].
      rewrite app_assoc. rewrite conn_snoc.
      intros [H | [[H1 H2] | [H1 H2]]].
      * exact (IH _ _ _ _ eq_refl H).
      * apply Hcd.
        assert (Hm : forall u v, conn (l1 ++ l2) u v ->
                                 conn (l1 ++ (a, b) :: l2) u v).
        { intros u v. apply conn_mono. intros q Hq.
          apply in_app_or in Hq as [Hq | Hq]; apply in_or_app;
            [now left | right; now right]. }
        assert (Hab : conn (l1 ++ (a, b) :: l2) a b).
        { apply conn_pair, in_or_app. right. now left. }
        eapply conn_trans; [apply conn_sym, Hm, H1|].
        eapply conn_trans; [exact Hab|]. apply conn_sym, Hm, H2.
      * apply Hcd.
        assert (Hm : forall u v, conn (l1 ++ l2) u v ->
                                 conn (l1 ++ (a, b) :: l2) u v).
        { intros u v. apply conn_mono. intros q Hq.
          apply in_app_or in Hq as [Hq | Hq]; apply in_or_app;
            [now left | right; now right]. }
        assert (Hab : conn (l1 ++ (a, b) :: l2) a b).
        { apply conn_pair, in_or_app. right. now left. }
        eapply conn_trans; [apply Hm, H2|].
        eapply conn_trans; [apply conn_sym, Hab|]. apply Hm, H1.
Qed.

Section UnionSound.
Variable dom : list Z.

Lemma same_set_root (g : Graph) (a ra : Z) :
  root g a ra -> same_set g a ra.
Proof.
  intros H. exists ra. split; [exact H|].
  constructor. eapply root_is_root, H.
Qed.

Lemma same_set_via_root (g : Graph) (a ra x : Z) :
  root g a ra -> same_set g x ra <-> same_set g x a.
Proof.
  intros H. pose proof (same_set_root g a ra H) as S.
  split; intros H'.
  - eapply same_set_trans; [exact H' | apply same_set_sym, S].
  - eapply same_set_trans; [exact H' | exact S].
Qed.

Lemma same_set_via_root_l (g : Graph) (a ra y : Z) :
  root g a ra -> same_set g ra y <-> same_set g a y.
Proof.
  intros H. split; intros H'; apply same_set_sym;
    apply same_set_sym in H'; now apply (same_set_via_root g a ra y H).
Qed.

(** What a call of [union_set] returns and leaves behind. *)
Lemma union_set_sound (g : Graph) (a b : Z) :
  dsu_inv dom g -> In a dom -> In b dom ->
  exists res g',
    union_set a b g = Some (res, g') /\ dsu_inv dom g' /\ frame dom g g' /\
    if res : bool then
      ~ same_set g a b /\ roots dom g = S (roots dom g') /\
      forall x y, In x dom -> In y dom ->
        (same_set g' x y <->
         same_set g x y \/ (same_set g x a /\ same_set g b y)
         \/ (same_set g x b /\ same_set g a y))
    else
      same_set g a b /\ roots dom g' = roots dom g /\
      forall x y, same_set g' x y <-> same_set g x y.
Proof.
  intros I Ha Hb.
  destruct (union_set_spec dom g a b I Ha Hb)
    as (ra & rb & g1 & Hra & Hrb & C & [[E U] | (Hne & g2 & U & L)]).
  - subst rb. exists false, g1. split; [exact U|].
    split; [eapply compress_inv; eassumption|].
    split; [now apply compress_frame|].
    split; [exists ra; auto|].
    split; [apply (compress_roots _ _ _ C)|].
    intros x y. apply (compress_same_set _ _ _ C).
  - exists true, g2. split; [exact U|].
    pose proof (compress_inv dom _ _ I C) as I1.
    destruct (root_rank dom g a ra I Ha Hra) as (Dra & _).
    destruct (root_rank dom g b rb I Hb Hrb) as (Drb & _).
    assert (Rra : vat (parent g1) ra = Some ra).
    { apply (compress_is_root _ _ _ C). eapply root_is_root, Hra. }
    assert (Rrb : vat (parent g1) rb = Some rb).
    { apply (compress_is_root _ _ _ C). eapply root_is_root, Hrb. }
    assert (Hns : ~ same_set g a b).
    { intros (r & H1 & H2). apply Hne.
      rewrite (root_det _ _ _ _ Hra H1). exact (root_det _ _ _ _ H2 Hrb). }
    pose proof (inv_range _ _ I1 ra Dra) as Gra.
    pose proof (inv_range _ _ I1 rb Drb) as Grb.
    destruct (Z.ltb_spec (rk g ra) (rk g rb)) as [Hlt|Hge].
    + assert (Hrk : rk g1 ra <= rk g1 rb)
        by (rewrite !(compress_rk _ _ _ C); lia).
      assert (Hne' : rb <> ra) by congruence.
      split; [exact (link_inv dom g1 g2 rb ra I1 Drb Dra Hne' Rrb Rra Hrk L)|].
      split.
      { eapply frame_trans; [apply compress_frame, C|].
        apply (linked_frame dom g1 g2 rb ra); auto; lia. }
      split; [exact Hns|].
      split.
      { rewrite <- (compress_roots _ _ _ C).
        exact (link_roots dom g1 g2 rb ra I1 Dra Hne' Rra L). }
      intros x y Hx Hy.
      rewrite (link_same_set dom g1 g2 rb ra I1 Dra Hne' Rrb Rra L x y Hx Hy).
      rewrite !(compress_same_set _ _ _ C).
      rewrite (same_set_via_root g a ra x Hra), (same_set_via_root g b rb x Hrb).
      rewrite (same_set_via_root_l g a ra y Hra),
              (same_set_via_root_l g b rb y Hrb).
      tauto.
    + assert (Hrk : rk g1 rb <= rk g1 ra)
        by (rewrite !(compress_rk _ _ _ C); lia).
      split; [exact (link_inv dom g1 g2 ra rb I1 Dra Drb Hne Rra Rrb Hrk L)|].
      split.
      { eapply frame_trans; [apply compress_frame, C|].
        apply (linked_frame dom g1 g2 ra rb); auto; lia. }
      split; [exact Hns|].
      split.
      { rewrite <- (compress_roots _ _ _ C).
        exact (link_roots dom g1 g2 ra rb I1 Drb Hne Rrb L). }
      intros x y Hx Hy.
      rewrite (link_same_set dom g1 g2 ra rb I1 Drb Hne Rra Rrb L x y Hx Hy).
      rewrite !(compress_same_set _ _ _ C).
      rewrite (same_set_via_root g a ra x Hra), (same_set_via_root g b rb x Hrb).
      rewrite (same_set_via_root_l g a ra y Hra),
              (same_set_via_root_l g b rb y Hrb).
      tauto.
Qed.

End UnionSound.

(** ** Registered indices and [make_set] *)

Lemma registered_spec (g : Graph) (i : Z) :
  In i (registered g) <-> exists name, vertices g !! name = Some i.
Proof.
  unfold registered. rewrite <- list_elem_of_In, elem_of_remove_dups,
    list_elem_of_fmap.
  split.
  - intros ([name j] & -> & H). exists name.
    now apply elem_of_map_to_list in H.
  - intros (name & H). exists (name, i). split; [reflexivity|].
    now apply elem_of_map_to_list.
Qed.

Lemma registered_nodup (g : Graph) : NoDup (registered g).
Proof. apply NoDup_remove_dups. Qed.

Lemma wf_graph_spec (g : Graph) :
  wf_graph g = true <->
  0 <= numVertices g <= max_int /\
  (forall i, In i (registered g) -> 0 <= i < numVertices g) /\
  Z.of_nat (length (edges g)) <= 2 ^ 30.
Proof.
  unfold wf_graph. rewrite !andb_true_iff, forallb_forall.
  rewrite !Z.leb_le. split.
  - intros [[[H1 H2] H3] H4]. repeat split; try assumption;
      apply H3 in H as [Ha Hb]%andb_true_iff; lia.
  - intros [[H1 H2] [H3 H4]]. repeat split; try assumption.
    intros i Hi. apply H3 in Hi. apply andb_true_iff. lia.
Qed.

Lemma getIndex_same (g g' : Graph) (name : string) :
  vertices g' = vertices g -> getIndex g' name = getIndex g name.
Proof. unfold getIndex. now intros ->. Qed.

Lemma getIndex_registered (g : Graph) (name : string) :
  0 <= getIndex g name -> In (getIndex g name) (registered g).
Proof.
  unfold getIndex. intros H. apply registered_spec.
  destruct (vertices g !! name) as [i|] eqn:E; [now exists name | lia].
Qed.


Lemma resolvable_true (g : Graph) (e : edge) :
  resolvable g e = true ->
  In (getIndex g (src e)) (registered g) /\
  In (getIndex g (dst e)) (registered g).
Proof.
  unfold resolvable. intros [H1 H2]%andb_true_iff.
  split; apply getIndex_registered; lia.
Qed.

Lemma resolvable_same (g g' : Graph) (e : edge) :
  vertices g' = vertices g -> resolvable g' e = resolvable g e.
Proof.
  intros H. unfold resolvable. now rewrite !(getIndex_same g g' _ H).
Qed.

(** Distinct slots of a vector are no more than its length. *)
Lemma nodup_range_length (l : list Z) (n : Z) :
  NoDup l -> (forall i, In i l -> 0 <= i < n) ->
  (length l <= Z.to_nat n)%nat.
Proof.
  intros ND Hr.
  assert (H : Z.to_nat <$> l ⊆+ seq 0 (Z.to_nat n)).
  { apply NoDup_submseteq.
    - apply (NoDup_fmap_2_strong Z.to_nat); [|exact ND].
      intros x y Hx%list_elem_of_In%Hr Hy%list_elem_of_In%Hr E. lia.
    - intros k (i & -> & Hi%list_elem_of_In%Hr)%list_elem_of_fmap.
      apply elem_of_seq. lia. }
  apply submseteq_length in H.
  now rewrite length_fmap, length_seq in H.
Qed.

(** The loop of [make_set] over the entries [kvs]. *)
Lemma make_set_fold (kvs : list (string * Z)) :
  forall p r : list Z,
    length r = length p ->
    (forall kv, In kv kvs -> 0 <= kv.2 < Z.of_nat (length p)) ->
    exists p' r',
      foldl make_set_step (Some (p, r)) kvs = Some (p', r') /\
      length p' = length p /\ length r' = length p /\
      (forall i, In i (kvs.*2) -> vat p' i = Some i /\ vat r' i = Some 0) /\
      (forall j, ~ In j (kvs.*2) -> vat p' j = vat p j /\ vat r' j = vat r j).
Proof.
  induction kvs as [|[name v] kvs IH]; intros p r Hlen Hr.
  - exists p, r. split; [reflexivity|]. split; [reflexivity|].
    split; [assumption|]. split; [intros i [] | auto].
  - cbn [foldl make_set_step mbind option_bind snd].
    assert (Hv : 0 <= v < Z.of_nat (length p)) by (apply (Hr (name, v)); now left).
    rewrite (vset_in_range p v v Hv). cbn [mbind option_bind].
    rewrite (vset_in_range r v 0) by (rewrite Hlen; exact Hv).
    cbn [mbind option_bind].
    destruct (IH (<[Z.to_nat v := v]> p) (<[Z.to_nat v := 0]> r))
      as (p' & r' & -> & Lp & Lr & Hin & Hout).
    { now rewrite !length_insert. }
    { intros kv Hkv. rewrite length_insert. apply Hr. now right. }
    rewrite length_insert in Lp, Lr.
    exists p', r'. split; [reflexivity|]. do 2 (split; [assumption|]).
    split.
    + intros i Hi. destruct (in_dec Z.eq_dec i (kvs.*2)) as [Hk|Hk];
        [now apply Hin|].
      destruct Hi as [<-|Hi]; [|contradiction]. cbn [snd] in *.
      destruct (Hout v Hk) as [-> ->].
      rewrite !vat_insert_eq; auto. now rewrite Hlen.
    + intros j Hj. cbn [fmap list_fmap snd] in Hj.
      assert (Hjv : v <> j) by (intros ->; apply Hj; now left).
      assert (Hjk : ~ In j (kvs.*2)) by (intros H; apply Hj; now right).
      destruct (Hout j Hjk) as [-> ->].
      rewrite !vat_insert_ne by lia. auto.
Qed.

Lemma length_vresize (n : Z) (l l' : list Z) :
  vresize n 0 l = Some l' -> length l' = Z.to_nat n.
Proof.
  unfold vresize. destruct (n <? 0); [discriminate|].
  intros [= <-]. apply length_resize.
Qed.

(** [make_set] returns on a well-formed engine, and what it leaves. *)
Lemma make_set_spec (g : Graph) :
  wf_graph g = true ->
  exists g',
    make_set g = Some g' /\
    vertices g' = vertices g /\ edges g' = edges g /\
    numVertices g' = numVertices g /\ numEdges g' = numEdges g /\
    length (parent g') = Z.to_nat (numVertices g) /\
    length (rnk g') = Z.to_nat (numVertices g) /\
    (forall i, In i (registered g) ->
               vat (parent g') i = Some i /\ vat (rnk g') i = Some 0) /\
    (forall j, ~ In j (registered g) ->
               vat (parent g') j
               = vat (resize (Z.to_nat (numVertices g)) 0 (parent g)) j /\
               vat (rnk g') j
               = vat (resize (Z.to_nat (numVertices g)) 0 (rnk g)) j).
Proof.
  intros (HV & Hreg & _)%wf_graph_spec. unfold make_set, vresize.
  destruct (Z.ltb_spec (numVertices g) 0); [lia|].
  cbn [mbind option_bind].
  set (n := Z.to_nat (numVertices g)).
  destruct (make_set_fold (map_to_list (vertices g))
              (resize n 0 (parent g)) (resize n 0 (rnk g)))
    as (p' & r' & -> & Lp & Lr & Hin & Hout).
  { now rewrite !length_resize. }
  { intros [name i] Hkv. rewrite length_resize. cbn [snd].
    assert (In i (registered g)).
    { apply registered_spec. exists name.
      now apply elem_of_map_to_list, list_elem_of_In. }
    apply Hreg in H0. lia. }
  cbn [mbind option_bind]. rewrite length_resize in Lp, Lr.
  eexists. split; [reflexivity|]. cbn.
  do 6 (split; [reflexivity || assumption|]).
  assert (Hmem : forall i, In i ((map_to_list (vertices g)).*2)
                           <-> In i (registered g)).
  { intros i. unfold registered.
    now rewrite <- !list_elem_of_In, elem_of_remove_dups. }
  split.
  - intros i Hi. apply Hin, Hmem, Hi.
  - intros j Hj. apply Hout. now rewrite Hmem.
Qed.

Lemma filter_all (P : Z -> bool) (l : list Z) :
  (forall x, In x l -> P x = true) -> List.filter P l = l.
Proof.
  induction l as [|x l IH]; intros H; [reflexivity|].
  simpl. rewrite (H x) by now left. f_equal. apply IH.
  intros y Hy. apply H. now right.
Qed.

(** After [make_set] every registered slot is a component of its own. *)
Lemma make_set_inv (g g' : Graph) :
  wf_graph g = true -> make_set g = Some g' ->
  dsu_inv (registered g) g' /\
  roots (registered g) g' = length (registered g) /\
  (forall x y, In x (registered g) -> In y (registered g) ->
               (same_set g' x y <-> x = y)).
Proof.
  intros W M. destruct (make_set_spec g W)
    as (g'' & M' & _ & _ & _ & _ & Lp & Lr & Hin & _).
  rewrite M in M'. inversion M'; subst g''. clear M'.
  apply wf_graph_spec in W as (HV & Hreg & _).
  assert (HR : roots (registered g) g' = length (registered g)).
  { unfold roots. f_equal. apply filter_all. intros i Hi.
    apply is_root_true, Hin, Hi. }
  assert (Hrk : forall i, In i (registered g) -> rk g' i = 0).
  { intros i Hi. unfold rk. now rewrite (proj2 (Hin i Hi)). }
  split; [|split; [exact HR|]].
  - constructor.
    + apply registered_nodup.
    + congruence.
    + rewrite Lp. lia.
    + rewrite Lp. apply nodup_range_length; [apply registered_nodup | exact Hreg].
    + intros i Hi. rewrite Lp. apply Hreg in Hi. lia.
    + intros i p Hi Hp. rewrite (proj1 (Hin i Hi)) in Hp. congruence.
    + intros i p Hi Hp Hne. rewrite (proj1 (Hin i Hi)) in Hp. congruence.
    + intros i Hi. rewrite (Hrk i Hi), HR. lia.
  - intros x y Hx Hy. split.
    + intros (r & H1 & H2).
      rewrite <- (root_of_root g' x r (proj1 (Hin x Hx)) H1).
      exact (root_of_root g' y r (proj1 (Hin y Hy)) H2).
    + intros <-. exists x. split; constructor; apply Hin, Hx.
Qed.

(** ** The two loops and their common decisions *)

Lemma accepted_edges_app (ds1 ds2 : list (edge * bool)) :
  accepted_edges (ds1 ++ ds2) = accepted_edges ds1 ++ accepted_edges ds2.
Proof. unfold accepted_edges. now rewrite List.filter_app, map_app. Qed.

Lemma mst_loop_decisions (es : list edge) :
  forall (g : Graph) (acc : list edge) (cost : Z),
    mst_loop es g acc cost =
    '(ds, g') ← decisions es g;
    Some (acc ++ accepted_edges ds, cost_of cost ds, g').
Proof.
  induction es as [|e es IH]; intros g acc cost.
  - cbn. now rewrite app_nil_r.
  - cbn [mst_loop decisions]. unfold resolvable.
    destruct ((0 <=? getIndex g (src e)) && (0 <=? getIndex g (dst e))).
    + destruct (union_set _ _ g) as [[[] g1]|]; cbn [mbind option_bind];
        [| |reflexivity]; rewrite IH;
        destruct (decisions es g1) as [[ds g2]|]; cbn; try reflexivity.
      now rewrite <- app_assoc.
    + cbn [mbind option_bind]. rewrite IH.
      destruct (decisions es g) as [[ds g2]|]; reflexivity.
Qed.

Lemma steps_loop_decisions (es : list edge) :
  forall (g : Graph) (st : trace_state),
    steps_loop es g st =
    '(ds, g') ← decisions es g; Some (replay st ds, g').
Proof.
  induction es as [|e es IH]; intros g st; [reflexivity|].
  cbn [steps_loop decisions]. unfold resolvable.
  destruct (if (0 <=? getIndex g (src e)) && (0 <=? getIndex g (dst e))
            then union_set (getIndex g (src e)) (getIndex g (dst e)) g
            else Some (false, g)) as [[acc g1]|]; [|reflexivity].
  cbn [mbind option_bind]. rewrite IH.
  destruct (decisions es g1) as [[ds g2]|]; reflexivity.
Qed.

Lemma replay_total (ds : list (edge * bool)) :
  forall st, total (replay st ds) = cost_of (total st) ds.
Proof.
  induction ds as [|[e acc] ds IH]; intros st; [reflexivity|].
  unfold replay, cost_of in *. cbn [fold_left]. rewrite IH. reflexivity.
Qed.

(** The text printed by the loop is the rendering of the steps. *)
Lemma replay_out (ds : list (edge * bool)) :
  forall (st : trace_state) (prev : step),
    totalWeight prev = total st ->
    step_mstEdgeIds prev = mstEdgeIds st ->
    step_rejectedEdgeIds prev = rejectedEdgeIds st ->
    out (replay st ds) = out st +:+ emit_steps (first st) (steps_of prev ds).
Proof.
  induction ds as [|[e acc] ds IH]; intros st prev Ht Hm Hr.
  - cbn [replay fold_left steps_of emit_steps]. now rewrite append_empty_r.
  - unfold replay in *. cbn [fold_left steps_of emit_steps].
    rewrite (IH (advance st (e, acc)) (next_step prev (e, acc))).
    + destruct prev as [pe pa pt pm pr], st as [sm sr stt sf so].
      cbn [totalWeight step_mstEdgeIds step_rejectedEdgeIds
           total mstEdgeIds rejectedEdgeIds] in Ht, Hm, Hr.
      subst pt pm pr. unfold advance, next_step, render_step.
      cbn [out first total mstEdgeIds rejectedEdgeIds totalWeight
           step_mstEdgeIds step_rejectedEdgeIds considered accepted].
      now rewrite !append_assoc.
    + unfold advance, next_step. cbn [total totalWeight]. now rewrite Ht.
    + unfold advance, next_step. cbn [mstEdgeIds step_mstEdgeIds].
      now rewrite Hm.
    + unfold advance, next_step. cbn [rejectedEdgeIds step_rejectedEdgeIds].
      now rewrite Hr.
Qed.





Lemma decisions_fst (es : list edge) :
  forall g ds g', decisions es g = Some (ds, g') -> map fst ds = es.
Proof.
  induction es as [|e es IH]; intros g ds g' H; cbn in H.
  - now inversion H.
  - destruct (if resolvable g e then _ else _) as [[acc g1]|];
      [|discriminate].
    cbn in H. destruct (decisions es g1) as [[ds' g2]|] eqn:E; [|discriminate].
    cbn in H. inversion H; subst. cbn. f_equal. eapply IH, E.
Qed.

(** ** The loop invariant *)

Section Kruskal.
Variable g0 : Graph.
Local Abbreviation dom := (registered g0).

Lemma kruskal_inv_reject (g g1 : Graph) (done : list (edge * bool))
      (e : edge) :
  kruskal_inv g0 g done ->
  dsu_inv dom g1 -> vertices g1 = vertices g ->
  (forall x y, same_set g1 x y <-> same_set g x y) ->
  roots dom g1 = roots dom g ->
  kruskal_inv g0 g1 (done ++ [(e, false)]).
Proof.
  intros K I V S R.
  assert (E : accepted_edges (done ++ [(e, false)]) = accepted_edges done).
  { rewrite accepted_edges_app. cbn. apply app_nil_r. }
  constructor; rewrite ?E.
  - exact I.
  - rewrite V. apply K.
  - apply K.
  - intros x y Hx Hy. rewrite S. now apply K.
  - fold dom. rewrite R. apply K.
  - intros e' [H|[H|[]]]%in_app_or; [now apply K | discriminate].
Qed.

Lemma kruskal_inv_accept (g g1 : Graph) (done : list (edge * bool))
      (e : edge) :
  kruskal_inv g0 g done -> resolvable g0 e = true ->
  dsu_inv dom g1 -> vertices g1 = vertices g ->
  ~ same_set g (getIndex g0 (src e)) (getIndex g0 (dst e)) ->
  roots dom g = S (roots dom g1) ->
  (forall x y, In x dom -> In y dom ->
     (same_set g1 x y <->
      same_set g x y
      \/ (same_set g x (getIndex g0 (src e))
          /\ same_set g (getIndex g0 (dst e)) y)
      \/ (same_set g x (getIndex g0 (dst e))
          /\ same_set g (getIndex g0 (src e)) y))) ->
  kruskal_inv g0 g1 (done ++ [(e, true)]).
Proof.
  intros K Res I V Hns R S.
  destruct (resolvable_true g0 e Res) as [Da Db]. fold dom in Da, Db.
  assert (E : accepted_edges (done ++ [(e, true)])
              = accepted_edges done ++ [e]).
  { now rewrite accepted_edges_app. }
  constructor; rewrite ?E, ?map_app; cbn [map].
  - exact I.
  - rewrite V. apply K.
  - apply forest_snoc; [apply K|].
    intros H. apply Hns. now apply (k_same _ _ _ K).
  - intros x y Hx Hy. rewrite (S x y Hx Hy). unfold endpoints at 2.
    rewrite conn_snoc.
    rewrite !(k_same _ _ _ K) by assumption. reflexivity.
  - fold dom. rewrite length_app. cbn [length].
    pose proof (k_count _ _ _ K) as C. fold dom in C. lia.
  - intros e' [H|[H|[]]]%in_app_or; [now apply K|].
    now inversion H; subst.
Qed.

(** The decisions are made, and the invariant holds after them. *)
Lemma decisions_spec (es : list edge) :
  forall (g : Graph) (done : list (edge * bool)),
    kruskal_inv g0 g done ->
    exists ds g',
      decisions es g = Some (ds, g') /\
      kruskal_inv g0 g' (done ++ ds) /\ frame dom g g'.
Proof.
  induction es as [|e es IH]; intros g done K.
  - exists [], g. rewrite app_nil_r.
    split; [reflexivity|]. split; [exact K | apply frame_refl].
  - cbn [decisions].
    pose proof (k_vertices _ _ _ K) as V.
    rewrite (resolvable_same g0 g e V), !(getIndex_same g0 g _ V).
    destruct (resolvable g0 e) eqn:Res.
    + destruct (resolvable_true g0 e Res) as [Da Db].
      destruct (union_set_sound dom g _ _ (k_dsu _ _ _ K) Da Db)
        as (res & g1 & -> & I1 & F1 & Hres).
      cbn [mbind option_bind].
      assert (K1 : kruskal_inv g0 g1 (done ++ [(e, res)])).
      { destruct res.
        - destruct Hres as (Hns & R & S).
          eapply kruskal_inv_accept; try eassumption. apply F1.
        - destruct Hres as (Hs & R & S).
          eapply kruskal_inv_reject; try eassumption. apply F1. }
      destruct (IH g1 _ K1) as (ds & g' & -> & K' & F').
      cbn [mbind option_bind].
      exists ((e, res) :: ds), g'. split; [reflexivity|].
      split; [|eapply frame_trans; eassumption].
      now rewrite <- app_assoc in K'.
    + cbn [mbind option_bind].
      assert (K1 : kruskal_inv g0 g (done ++ [(e, false)])).
      { eapply kruskal_inv_reject; try eassumption; try reflexivity.
        apply K. }
      destruct (IH g _ K1) as (ds & g' & -> & K' & F').
      cbn [mbind option_bind].
      exists ((e, false) :: ds), g'. split; [reflexivity|].
      split; [|exact F']. now rewrite <- app_assoc in K'.
Qed.

(** Pairwise separated slots have pairwise distinct representatives,
    so they are no more than the representatives. *)
Lemma separated_length (g : Graph) (reps : list Z) :
  dsu_inv dom g -> NoDup reps ->
  (forall r, In r reps -> In r dom) ->
  (forall r1 r2, In r1 reps -> In r2 reps -> r1 <> r2 ->
                 ~ same_set g r1 r2) ->
  (length reps <= roots dom g)%nat.
Proof.
  intros I ND Hdom Hsep.
  assert (H : exists rs, length rs = length reps /\ NoDup rs /\
                         forall q, In q rs -> exists r, In r reps /\ root g r q).
  { induction reps as [|r reps IH]; [exists []; repeat split; [constructor | intros q []]|].
    apply NoDup_cons in ND as [Hr ND]. rewrite list_elem_of_In in Hr.
    destruct IH as (rs & Hlen & NDrs & Hrs); [exact ND | | |].
    { intros x Hx. apply Hdom. now right. }
    { intros x y Hx Hy. apply Hsep; now right. }
    destruct (root_total dom g r I (Hdom r (or_introl eq_refl))) as [q Hq].
    exists (q :: rs). split; [cbn; now rewrite Hlen|]. split.
    - apply NoDup_cons. split; [|exact NDrs].
      rewrite list_elem_of_In. intros Hin.
      destruct (Hrs q Hin) as (r' & Hr' & Hq').
      apply (Hsep r r'); [now left | now right | congruence |].
      exists q. auto.
    - intros q' [<-|Hq']; [exists r; split; [now left | exact Hq]|].
      destruct (Hrs q' Hq') as (r' & Hr' & Hq''). exists r'.
      split; [now right | exact Hq'']. }
  destruct H as (rs & <- & NDrs & Hrs). unfold roots.
  apply submseteq_length, NoDup_submseteq; [exact NDrs|].
  intros q Hq%list_elem_of_In. apply list_elem_of_In, List.filter_In.
  destruct (Hrs q Hq) as (r & Hr & Hroot).
  split.
  - eapply root_rank; [exact I | apply Hdom, Hr | exact Hroot].
  - apply is_root_true. eapply root_is_root, Hroot.
Qed.

End Kruskal.

(** ** The two entry points *)

Lemma wf_graph_set_edges (g : Graph) (es : list edge) :
  length es = length (edges g) -> wf_graph g = true ->
  wf_graph (set_edges es g) = true.
Proof.
  intros Hlen W. unfold wf_graph in *. cbn [set_edges numVertices edges].
  now rewrite Hlen.
Qed.

(** A run on a well-formed engine: the sort, the initialisation and
    the decisions all return. *)
Lemma run_spec (g : Graph) :
  wf_graph g = true ->
  exists sorted gm ds g',
    sort g = Some (set_edges sorted g) /\
    rev_stable_sorted (edges g) sorted /\
    make_set (set_edges sorted g) = Some gm /\
    edges gm = sorted /\
    decisions sorted gm = Some (ds, g') /\
    kruskal_inv g g' ds /\
    frame (registered g) gm g' /\
    map fst ds = sorted.
Proof.
  intros W. pose proof W as (_ & _ & Hlen)%wf_graph_spec.
  destruct (sort_spec g Hlen) as (sorted & Hsort & Hrs).
  assert (W' : wf_graph (set_edges sorted g) = true).
  { apply wf_graph_set_edges; [|exact W].
    symmetry. apply Permutation_length, Hrs. }
  destruct (make_set_spec _ W') as (gm & M & V & E & _).
  destruct (make_set_inv _ gm W' M) as (I & R & S).
  change (registered (set_edges sorted g)) with (registered g) in I, R, S.
  assert (K0 : kruskal_inv g gm []).
  { constructor; cbn [accepted_edges List.filter map length].
    - exact I.
    - exact V.
    - constructor.
    - intros x y Hx Hy. rewrite (S x y Hx Hy). split.
      + intros ->. apply conn_refl.
      + apply conn_nil.
    - rewrite R. reflexivity.
    - intros e []. }
  destruct (decisions_spec g sorted gm [] K0) as (ds & g' & D & K & F).
  exists sorted, gm, ds, g'. cbn [app] in K.
  split; [exact Hsort|]. split; [exact Hrs|]. split; [exact M|].
  split; [exact E|]. split; [exact D|]. split; [exact K|].
  split; [exact F|]. eapply decisions_fst, D.
Qed.

Lemma mst_run (g : Graph) (sorted : list edge) (gm : Graph)
      (ds : list (edge * bool)) (g' : Graph) :
  sort g = Some (set_edges sorted g) ->
  make_set (set_edges sorted g) = Some gm -> edges gm = sorted ->
  decisions sorted gm = Some (ds, g') ->
  mst g = Some (accepted_edges ds, cost_of 0 ds, g').
Proof.
  intros S M E D. unfold mst. rewrite S. cbn [mbind option_bind].
  rewrite M. cbn [mbind option_bind].
  rewrite mst_loop_decisions, E, D. reflexivity.
Qed.

Lemma mst_steps_json_run (g : Graph) (sorted : list edge) (gm : Graph)
      (ds : list (edge * bool)) (g' : Graph) :
  sort g = Some (set_edges sorted g) ->
  make_set (set_edges sorted g) = Some gm -> edges gm = sorted ->
  decisions sorted gm = Some (ds, g') ->
  mst_steps_json g
  = Some (render_trace (steps_of step0 ds) (cost_of 0 ds), g').
Proof.
  intros S M E D. unfold mst_steps_json. rewrite S. cbn [mbind option_bind].
  rewrite M. cbn [mbind option_bind].
  rewrite steps_loop_decisions, E, D. cbn [mbind option_bind].
  rewrite replay_total, (replay_out ds _ step0) by reflexivity.
  cbn [out first total]. unfold render_trace.
  now rewrite !append_assoc.
Qed.

(** ** Running again on the same engine *)

(** A strictly ascending list has one ascending rearrangement. *)
Lemma sorted_perm_unique (l : list edge) :
  forall r, Permutation l r ->
            StronglySorted lt_weight l -> StronglySorted le_weight r -> l = r.
Proof.
  induction l as [|x l IH]; intros r P Sl Sr.
  - symmetry. now apply Permutation_nil.
  - destruct r as [|y r]; [symmetry in P; now apply Permutation_nil in P|].
    apply StronglySorted_inv in Sl as [Sl Fx].
    apply StronglySorted_inv in Sr as [Sr Fy].
    rewrite List.Forall_forall in Fx, Fy.
    assert (Hy : In y (x :: l)).
    { eapply Permutation_in; [symmetry; exact P | now left]. }
    assert (Hx : In x (y :: r)).
    { eapply Permutation_in; [exact P | now left]. }
    assert (E : x = y).
    { destruct Hy as [E|Hy]; [exact E|].
      destruct Hx as [E|Hx]; [now symmetry|].
      apply Fx in Hy. apply Fy in Hx. unfold lt_weight, le_weight in *. lia. }
    subst y. f_equal. apply IH; [|exact Sl | exact Sr].
    eapply Permutation_cons_inv, P.
Qed.

Lemma nodup_weights_strict (l : list edge) :
  StronglySorted le_weight l -> NoDup (map weight l) ->
  StronglySorted lt_weight l.
Proof.
  induction 1 as [|x l S IH F]; intros ND; [constructor|].
  cbn [map] in ND. apply NoDup_cons in ND as [Hx ND].
  constructor; [now apply IH|].
  rewrite List.Forall_forall in *. intros y Hy.
  specialize (F y Hy). unfold le_weight, lt_weight in *.
  assert (weight x <> weight y).
  { intros E. apply Hx. rewrite E. apply list_elem_of_In. now apply in_map. }
  lia.
Qed.

(** On a strictly ascending edge list [sort] changes nothing. *)
Lemma sort_fixed (g : Graph) :
  Z.of_nat (length (edges g)) <= 2 ^ 30 ->
  StronglySorted lt_weight (edges g) -> sort g = Some g.
Proof.
  intros Hlen S. destruct (sort_spec g Hlen) as (sorted & -> & P & Ss & _).
  rewrite <- (sorted_perm_unique _ _ P S Ss). now destruct g.
Qed.

Lemma vat_ext (l1 l2 : list Z) :
  (forall j, vat l1 j = vat l2 j) -> l1 = l2.
Proof.
  intros H. apply list_eq. intros i. specialize (H (Z.of_nat i)).
  unfold vat in H. destruct (Z.ltb_spec (Z.of_nat i) 0); [lia|].
  now rewrite Nat2Z.id in H.
Qed.

(** [make_set] undoes what the loops did to the vectors. *)
Lemma make_set_again (g gm g' : Graph) :
  wf_graph g = true -> make_set g = Some gm ->
  frame (registered g) gm g' -> make_set g' = Some gm.
Proof.
  intros W M F.
  destruct (make_set_spec g W)
    as (gm0 & M0 & V & E & NV & NE & Lp & Lr & Hin & Hout).
  rewrite M in M0. inversion M0; subst gm0. clear M0.
  assert (V' : vertices g' = vertices g)
    by (rewrite (fr_vertices _ _ _ F); exact V).
  assert (NV' : numVertices g' = numVertices g)
    by (rewrite (fr_numVertices _ _ _ F); exact NV).
  assert (E' : edges g' = edges g)
    by (rewrite (fr_edges _ _ _ F); exact E).
  assert (R' : registered g' = registered g)
    by (unfold registered; now rewrite V').
  assert (W' : wf_graph g' = true).
  { unfold wf_graph in *. now rewrite R', NV', E'. }
  destruct (make_set_spec g' W')
    as (gm' & -> & V2 & E2 & NV2 & NE2 & Lp2 & Lr2 & Hin2 & Hout2).
  f_equal. rewrite R', NV' in *.
  assert (P : parent gm' = parent gm).
  { apply vat_ext. intros j.
    destruct (in_dec Z.eq_dec j (registered g)) as [Hj|Hj].
    - rewrite (proj1 (Hin j Hj)), (proj1 (Hin2 j Hj)). reflexivity.
    - rewrite (proj1 (Hout2 j Hj)).
      rewrite resize_all_alt
        by (rewrite (fr_len_parent _ _ _ F); now rewrite Lp).
      apply (fr_parent _ _ _ F j Hj). }
  assert (R : rnk gm' = rnk gm).
  { apply vat_ext. intros j.
    destruct (in_dec Z.eq_dec j (registered g)) as [Hj|Hj].
    - rewrite (proj2 (Hin j Hj)), (proj2 (Hin2 j Hj)). reflexivity.
    - rewrite (proj2 (Hout2 j Hj)).
      rewrite resize_all_alt
        by (rewrite (fr_len_rnk _ _ _ F); now rewrite Lr).
      apply (fr_rnk _ _ _ F j Hj). }
  rewrite (fr_numEdges _ _ _ F) in NE2.
  destruct gm, gm'. cbn in *. congruence.
Qed.

(** ** Sequences of unions *)

(** After any unions made since [make_set], the components are those
    of the naive closure of the pairs joined. *)
Lemma unions_from_inv (gi g0 g : Graph) (ops : list (Z * Z)) :
  wf_graph gi = true -> make_set gi = Some g0 ->
  unions_from (registered gi) g0 ops g ->
  dsu_inv (registered gi) g /\
  forall x y, In x (registered gi) -> In y (registered gi) ->
              (same_set g x y <-> conn ops x y).
Proof.
  intros W M U. destruct (make_set_inv gi g0 W M) as (I0 & _ & S0).
  induction U as [|ops g a b res g' U IH Ha Hb Hu].
  - split; [exact I0|]. intros x y Hx Hy. rewrite (S0 x y Hx Hy). split.
    + intros ->. apply conn_refl.
    + apply conn_nil.
  - destruct IH as [I S].
    destruct (union_set_sound _ g a b I Ha Hb)
      as (res' & g'' & Hu' & I' & _ & Hres).
    rewrite Hu in Hu'. inversion Hu'; subst res' g''. clear Hu'.
    split; [exact I'|]. intros x y Hx Hy.
    destruct res.
    + destruct Hres as (_ & _ & S'). rewrite (S' x y Hx Hy), conn_snoc.
      rewrite !S by assumption. reflexivity.
    + destruct Hres as (Hab & _ & S'). rewrite S', (S x y Hx Hy).
      symmetry. apply conn_snoc_connected. now apply S.
Qed.

(** The closure of one pair relates a slot to itself and the two ends
    of the pair to each other, and nothing else. *)
Lemma conn_single (a b x y : Z) :
  conn [(a, b)] x y -> x = y \/ (x = a /\ y = b) \/ (x = b /\ y = a).
Proof.
  intros H. apply (conn_snoc [] a b x y) in H.
  destruct H as [H | [[H1 H2] | [H1 H2]]].
  - left. now apply conn_nil.
  - apply conn_nil in H1, H2. right. left. split; congruence.
  - apply conn_nil in H1, H2. right. right. split; congruence.
Qed.

(** The sample engines with unions are reached as their names say. *)
Lemma square_pairs_reachable :
  unions_from (registered square) square_sets [(0, 1); (2, 3)] square_pairs.
Proof.
  change [(0, 1); (2, 3)] with (([] ++ [(0, 1)]) ++ [(2, 3)]).
  eapply unions_more;
    [eapply unions_more;
     [apply unions_none | vm_compute; auto | vm_compute; auto
      | vm_compute; reflexivity]
    | vm_compute; auto | vm_compute; auto | vm_compute; reflexivity].
Qed.

Lemma square_joined_reachable :
  unions_from (registered square) square_sets
              [(0, 1); (2, 3); (1, 3)] square_joined.
Proof.
  change [(0, 1); (2, 3); (1, 3)] with ([(0, 1); (2, 3)] ++ [(1, 3)]).
  eapply unions_more;
    [exact square_pairs_reachable | vm_compute; auto | vm_compute; auto
     | vm_compute; reflexivity].
Qed.

(** * The claims *)

(** C9: [json_escape] works character by character, whatever stands
    before and after: a double quote, a backslash, a newline, a carriage
    return and a tab become a backslash followed by one character
    (the quote, the backslash, [n], [r], [t]); any other character is
    copied unchanged. *)
Theorem json_escape_characters (s1 s2 : string) (c : ascii) :
  json_escape (s1 +:+ String c s2) =
  json_escape s1
  +:+ (if Ascii.eqb c dquote then String backslash (str dquote)
       else if Ascii.eqb c backslash then String backslash (str backslash)
       else if Ascii.eqb c newline then String backslash "n"
       else if Ascii.eqb c creturn then String backslash "r"
       else if Ascii.eqb c tab then String backslash "t"
       else str c)
  +:+ json_escape s2.
Proof.
  rewrite json_escape_app. cbn [json_escape]. reflexivity.
Qed.

(** C4 (counterexample): as stated the claim fails; after
    [addVertex "A" 0] and [addVertex "A" 1], [getIndex "A"] is 0, the
    index of the first call, and not 1. *)
Lemma last_registration_loses :
  getIndex (addVertex "A" 1 (addVertex "A" 0 (new_Graph 2 0))) "A" = 0 /\
  getIndex (addVertex "A" 1 (addVertex "A" 0 (new_Graph 2 0))) "A" <> 1.
Proof. split; [reflexivity | discriminate]. Qed.

(** C4 (amended): when a name that is not yet registered is registered
    twice, the first registration wins: the second [addVertex] leaves
    the engine unchanged and [getIndex] returns the index of the first
    call. *)
Theorem first_registration_wins (g : Graph) (name : string) (i j : Z) :
  vertices g !! name = None ->
  addVertex name j (addVertex name i g) = addVertex name i g /\
  getIndex (addVertex name j (addVertex name i g)) name = i.
Proof.
  intros H.
  assert (E : addVertex name j (addVertex name i g) = addVertex name i g).
  { apply addVertex_registered. unfold addVertex. rewrite H. cbn.
    rewrite lookup_insert_eq. eauto. }
  split; [exact E|]. rewrite E. now apply getIndex_addVertex_fresh.
Qed.

Lemma first_registration_wins_witness :
  vertices (new_Graph 2 0) !! "A" = None /\
  addVertex "A" 1 (addVertex "A" 0 (new_Graph 2 0))
  = addVertex "A" 0 (new_Graph 2 0) /\
  getIndex (addVertex "A" 1 (addVertex "A" 0 (new_Graph 2 0))) "A" = 0.
Proof.
  split; [reflexivity|].
  apply (first_registration_wins (new_Graph 2 0) "A" 0 1). reflexivity.
Defined.

(** C2 (counterexample): as stated the claim fails; [tie_graph]
    holds [eA] before [eB], both of weight 5, and [sort] stores [eB]
    before [eA], so the edges of weight 5 are not in their order of
    arrival. *)
Lemma sort_reverses_ties :
  map id (edges tie_graph) = ["eA"; "eB"] /\
  map weight (edges tie_graph) = [5; 5] /\
  exists g', sort tie_graph = Some g' /\
             map id (edges g') = ["eB"; "eA"] /\
             ties 5 (edges g') <> ties 5 (edges tie_graph).
Proof.
  split; [reflexivity|]. split; [reflexivity|].
  eexists. split; [vm_compute; reflexivity|].
  split; [reflexivity | discriminate].
Qed.

(** C2 (amended): [sort] returns and stores a rearrangement of the
    edge list in ascending order of weight in which the edges of equal
    weight stand in the reverse of their order in the input (when
    merging, the right half's head is taken on equal weights). *)
Theorem sort_ascending_ties_reversed (g : Graph) :
  Z.of_nat (length (edges g)) <= 2 ^ 30 ->
  exists sorted,
    sort g = Some (set_edges sorted g) /\
    Permutation (edges g) sorted /\
    StronglySorted le_weight sorted /\
    forall w, ties w sorted = rev (ties w (edges g)).
Proof. intros H. exact (sort_spec g H). Qed.

Lemma sort_ascending_ties_reversed_witness :
  Z.of_nat (length (edges tie_graph)) <= 2 ^ 30 /\
  exists sorted,
    sort tie_graph = Some (set_edges sorted tie_graph) /\
    Permutation (edges tie_graph) sorted /\
    StronglySorted le_weight sorted /\
    forall w, ties w sorted = rev (ties w (edges tie_graph)).
Proof.
  split; [vm_compute; discriminate|].
  apply (sort_ascending_ties_reversed tie_graph). vm_compute. discriminate.
Defined.

(** C5: on a well-formed engine both computations return, and the
    cost left by [mst] is the number printed as [mstWeight] by
    [mst_steps_json] on the same engine. *)
Theorem cost_equals_mstWeight (g : Graph) :
  wf_graph g = true ->
  exists acc cost g' ss,
    mst g = Some (acc, cost, g') /\
    mst_steps_json g = Some (render_trace ss cost, g').
Proof.
  intros W.
  destruct (run_spec g W) as (sorted & gm & ds & g' & S & _ & M & E & D & _).
  exists (accepted_edges ds), (cost_of 0 ds), g', (steps_of step0 ds).
  split.
  - exact (mst_run g sorted gm ds g' S M E D).
  - exact (mst_steps_json_run g sorted gm ds g' S M E D).
Qed.

Lemma cost_equals_mstWeight_witness :
  wf_graph triangle = true /\
  exists acc cost g' ss,
    mst triangle = Some (acc, cost, g') /\
    mst_steps_json triangle = Some (render_trace ss cost, g').
Proof.
  split; [vm_compute; reflexivity|].
  apply (cost_equals_mstWeight triangle). vm_compute. reflexivity.
Defined.






(** C10: with no edge added, on a well-formed engine, [sort] returns
    the engine as it is without a call of [sortEdges] (which, called on
    the empty list with the bounds 0 and -1, would not return), [mst]
    returns the empty sequence and the cost 0, and [mst_steps_json]
    returns the text of the trace without steps and of weight 0. *)
Theorem no_edges (g : Graph) :
  wf_graph g = true -> edges g = [] ->
  sort g = Some g /\
  (forall fuel,
      sortEdges fuel (edges g) 0 (add_int (of_size (length (edges g))) (-1))
      = None) /\
  exists g',
    make_set g = Some g' /\
    mst g = Some ([], 0, g') /\
    mst_steps_json g = Some (empty_trace_text, g').
Proof.
  intros W E.
  assert (S : sort g = Some g) by (unfold sort; now rewrite E).
  split; [exact S|]. split.
  - intros fuel. rewrite E. destruct fuel as [|[|fuel]]; reflexivity.
  - destruct (make_set_spec g W) as (g' & M & _ & E' & _).
    exists g'. split; [exact M|].
    unfold mst, mst_steps_json. rewrite S. cbn [mbind option_bind].
    rewrite M. cbn [mbind option_bind]. rewrite E', E.
    split; reflexivity.
Qed.

Lemma no_edges_witness :
  wf_graph lonely = true /\ edges lonely = [] /\
  sort lonely = Some lonely /\
  (forall fuel,
      sortEdges fuel (edges lonely) 0
                (add_int (of_size (length (edges lonely))) (-1))
      = None) /\
  exists g',
    make_set lonely = Some g' /\
    mst lonely = Some ([], 0, g') /\
    mst_steps_json lonely = Some (empty_trace_text, g').
Proof.
  split; [vm_compute; reflexivity|]. split; [reflexivity|].
  apply (no_edges lonely); [vm_compute|]; reflexivity.
Defined.

(** C7: on a well-formed engine [mst] returns, and the accepted
    edges contain no cycle: the ends of an accepted edge are not
    connected by the other accepted edges.  Hence, for any vertices
    referenced by edges that lie in pairwise different connected
    components of the graph of the edges with registered ends (in
    particular for one vertex out of each component), the number of
    accepted edges is at most [numVertices] minus their number. *)
Theorem accepted_edges_form_forest (g : Graph) :
  wf_graph g = true ->
  exists acc cost g',
    mst g = Some (acc, cost, g') /\
    (forall l1 e l2,
        acc = l1 ++ e :: l2 ->
        ~ conn (map (endpoints g) (l1 ++ l2))
               (getIndex g (src e)) (getIndex g (dst e))) /\
    (forall reps,
        NoDup reps ->
        (forall r, In r reps ->
                   0 <= r /\
                   exists e, In e (edges g) /\
                             (r = getIndex g (src e) \/
                              r = getIndex g (dst e))) ->
        (forall r1 r2,
            In r1 reps -> In r2 reps -> r1 <> r2 ->
            ~ conn (map (endpoints g) (List.filter (resolvable g) (edges g)))
                   r1 r2) ->
        Z.of_nat (length acc) <= numVertices g - Z.of_nat (length reps)).
Proof.
  intros W.
  destruct (run_spec g W)
    as (sorted & gm & ds & g' & S & (P & _) & M & E & D & K & _ & Hfst).
  exists (accepted_edges ds), (cost_of 0 ds), g'.
  split; [exact (mst_run g sorted gm ds g' S M E D)|]. split.
  - intros l1 e l2 Hacc.
    pose proof (k_forest _ _ _ K) as F. rewrite Hacc, map_app in F.
    cbn [map] in F. rewrite map_app.
    exact (forest_bridge _ F _ _ _ _ eq_refl).
  - intros reps ND Href Hsep.
    assert (Hdom : forall r, In r reps -> In r (registered g)).
    { intros r Hr. destruct (Href r Hr) as (H0 & e & _ & [-> | ->]);
        now apply getIndex_registered. }
    assert (Hle : (length reps <= roots (registered g) g')%nat).
    { apply separated_length; [apply K | exact ND | exact Hdom|].
      intros r1 r2 H1 H2 Hne Hs. apply (Hsep r1 r2 H1 H2 Hne).
      apply (k_same _ _ _ K) in Hs; [|auto..].
      eapply conn_mono; [|exact Hs].
      intros p (e & <- & He)%in_map_iff. apply in_map.
      unfold accepted_edges in He.
      apply in_map_iff in He as ([e' v] & <- & [He Hv]%List.filter_In).
      cbn [fst snd] in *. subst v. apply List.filter_In. split.
      - eapply Permutation_in; [symmetry; exact P|].
        rewrite <- Hfst. now apply (in_map fst) in He.
      - now apply (k_resolvable _ _ _ K). }
    pose proof (k_count _ _ _ K) as C.
    apply wf_graph_spec in W as (HV & Hreg & _).
    pose proof (nodup_range_length (registered g) (numVertices g)
                  (registered_nodup g) Hreg).
    lia.
Qed.

Lemma accepted_edges_form_forest_witness :
  wf_graph triangle = true /\
  exists acc cost g',
    mst triangle = Some (acc, cost, g') /\
    (forall l1 e l2,
        acc = l1 ++ e :: l2 ->
        ~ conn (map (endpoints triangle) (l1 ++ l2))
               (getIndex triangle (src e)) (getIndex triangle (dst e))) /\
    (forall reps,
        NoDup reps ->
        (forall r, In r reps ->
                   0 <= r /\
                   exists e, In e (edges triangle) /\
                             (r = getIndex triangle (src e) \/
                              r = getIndex triangle (dst e))) ->
        (forall r1 r2,
            In r1 reps -> In r2 reps -> r1 <> r2 ->
            ~ conn (map (endpoints triangle)
                        (List.filter (resolvable triangle) (edges triangle)))
                   r1 r2) ->
        Z.of_nat (length acc)
        <= numVertices triangle - Z.of_nat (length reps)).
Proof.
  split; [vm_compute; reflexivity|].
  apply (accepted_edges_form_forest triangle). vm_compute. reflexivity.
Defined.

(** C3 (counterexample): as stated the claim fails; [mst] called
    twice on the engine [tie_graph] returns the edges [eB; eA] the first
    time and [eA; eB] the second time, and the two texts returned by two
    calls of [mst_steps_json] differ as well. *)
Lemma second_run_differs :
  (exists acc1 c1 g1 acc2 c2 g2,
      mst tie_graph = Some (acc1, c1, g1) /\
      mst g1 = Some (acc2, c2, g2) /\
      map id acc1 = ["eB"; "eA"] /\ map id acc2 = ["eA"; "eB"] /\
      acc1 <> acc2) /\
  (exists t1 g1 t2 g2,
      mst_steps_json tie_graph = Some (t1, g1) /\
      mst_steps_json g1 = Some (t2, g2) /\
      t1 <> t2).
Proof.
  split.
  - do 6 eexists. split; [vm_compute; reflexivity|].
    split; [vm_compute; reflexivity|].
    split; [reflexivity|]. split; [reflexivity | discriminate].
  - do 4 eexists. split; [vm_compute; reflexivity|].
    split; [vm_compute; reflexivity | discriminate].
Qed.

(** C3 (amended): on a well-formed engine whose edges have pairwise
    distinct weights, a computation leaves the engine in a state [g1]
    on which [mst] returns what it returned the first time and
    [mst_steps_json] returns what it returned the first time, and which
    they leave as it is: however often the two are invoked, the results
    are the same. *)
Theorem rerun_identical_on_distinct_weights (g : Graph) :
  wf_graph g = true -> NoDup (map weight (edges g)) ->
  exists acc cost text g1,
    mst g = Some (acc, cost, g1) /\
    mst_steps_json g = Some (text, g1) /\
    mst g1 = Some (acc, cost, g1) /\
    mst_steps_json g1 = Some (text, g1).
Proof.
  intros W ND.
  destruct (run_spec g W)
    as (sorted & gm & ds & g' & S & (P & Ss & _) & M & E & D & K & F & _).
  exists (accepted_edges ds), (cost_of 0 ds),
         (render_trace (steps_of step0 ds) (cost_of 0 ds)), g'.
  split; [exact (mst_run g sorted gm ds g' S M E D)|].
  split; [exact (mst_steps_json_run g sorted gm ds g' S M E D)|].
  assert (W1 : wf_graph (set_edges sorted g) = true).
  { apply wf_graph_set_edges; [|exact W]. symmetry.
    now apply Permutation_length. }
  assert (E' : edges g' = sorted) by (rewrite (fr_edges _ _ _ F); exact E).
  assert (G' : set_edges sorted g' = g')
    by (rewrite <- E'; now destruct g').
  assert (S' : sort g' = Some (set_edges sorted g')).
  { rewrite G'. apply sort_fixed.
    - rewrite E'. apply wf_graph_spec in W1. apply W1.
    - rewrite E'. apply nodup_weights_strict; [exact Ss|].
      now rewrite <- (Permutation_map weight P). }
  assert (M' : make_set (set_edges sorted g') = Some gm).
  { rewrite G'. exact (make_set_again _ gm g' W1 M F). }
  split.
  - exact (mst_run g' sorted gm ds g' S' M' E D).
  - exact (mst_steps_json_run g' sorted gm ds g' S' M' E D).
Qed.

Lemma rerun_identical_on_distinct_weights_witness :
  wf_graph triangle = true /\ NoDup (map weight (edges triangle)) /\
  exists acc cost text g1,
    mst triangle = Some (acc, cost, g1) /\
    mst_steps_json triangle = Some (text, g1) /\
    mst g1 = Some (acc, cost, g1) /\
    mst_steps_json g1 = Some (text, g1).
Proof.
  split; [vm_compute; reflexivity|].
  split; [apply (bool_decide_unpack _); vm_compute; exact I|].
  apply (rerun_identical_on_distinct_weights triangle).
  - vm_compute. reflexivity.
  - apply (bool_decide_unpack _). vm_compute. exact I.
Defined.

(** C6 (counterexample): as stated the claim fails; it speaks of all
    [a], [b] in [[0, n)], but [make_set] initialises only the slots
    whose index is registered.  On [gapped] (three slots, the names [A]
    and [B] with the indices 0 and 2) slot 1 keeps the 0 written by the
    resize: with no union made it already has the representative of
    slot 0, and [union_set 1 2] joins the slots 0 and 2, which the
    closure of the one pair (1, 2) keeps apart. *)
Lemma unregistered_slot_not_initialised :
  wf_graph gapped = true /\ make_set gapped = Some gapped_sets /\
  0 <= 1 < numVertices gapped /\ 0 <= 2 < numVertices gapped /\
  ~ In 1 (registered gapped) /\
  (same_set gapped_sets 0 1 /\ ~ conn [] 0 1) /\
  exists g',
    union_set 1 2 gapped_sets = Some (true, g') /\
    same_set g' 0 2 /\ ~ conn [(1, 2)] 0 2.
Proof.
  split; [vm_compute; reflexivity|]. split; [vm_compute; reflexivity|].
  split; [vm_compute; split; [discriminate | reflexivity]|].
  split; [vm_compute; split; [discriminate | reflexivity]|].
  split; [vm_compute; intros [H|[H|[]]]; discriminate|].
  split.
  - split.
    + exists 0. split; [now constructor|].
      eapply root_step; [reflexivity | discriminate | now constructor].
    + intros H. apply conn_nil in H. discriminate.
  - eexists. split; [vm_compute; reflexivity|]. split.
    + exists 0. split; [now constructor|].
      eapply root_step; [reflexivity | discriminate | now constructor].
    + intros [H | [[H _] | [H _]]]%conn_single; discriminate.
Qed.

(** C6 (amended): let [g] be an engine reached from the state left by
    [make_set] by the calls [ops] of [union_set] on registered indices,
    and let [a] and [b] be registered indices (the slots that
    [make_set] initialises; all of [[0, n)] when every index below [n]
    is registered).  Then [union_set a b] returns.  When [a] and [b]
    have the same representative it returns [false] and the components
    are the same after as before.  Otherwise it returns [true]; the
    representative of lower rank is attached under the one of higher
    rank (on a tie the representative of [b] under that of [a], whose
    rank grows by one; no other rank changes); exactly the components of
    [a] and [b] are merged.  Before and after, the components of the
    registered indices are those of the naive closure of all the pairs
    joined so far. *)
Theorem union_set_correct
        (gi g0 g : Graph) (ops : list (Z * Z)) (a b : Z) :
  wf_graph gi = true -> make_set gi = Some g0 ->
  unions_from (registered gi) g0 ops g ->
  In a (registered gi) -> In b (registered gi) ->
  exists res g' ra rb,
    union_set a b g = Some (res, g') /\
    root g a ra /\ root g b rb /\
    res = negb (ra =? rb) /\
    (ra = rb -> forall x y, same_set g' x y <-> same_set g x y) /\
    (ra <> rb ->
     let w := if rk g ra <? rk g rb then rb else ra in
     let l := if rk g ra <? rk g rb then ra else rb in
     rk g l <= rk g w /\
     vat (parent g') l = Some w /\
     rk g' w = (if rk g ra =? rk g rb then rk g w + 1 else rk g w) /\
     (forall j, j <> w -> rk g' j = rk g j) /\
     forall x y,
       In x (registered gi) -> In y (registered gi) ->
       (same_set g' x y <->
        same_set g x y \/ (same_set g x a /\ same_set g b y)
        \/ (same_set g x b /\ same_set g a y))) /\
    (forall x y,
        In x (registered gi) -> In y (registered gi) ->
        (same_set g x y <-> conn ops x y)) /\
    (forall x y,
        In x (registered gi) -> In y (registered gi) ->
        (same_set g' x y <-> conn (ops ++ [(a, b)]) x y)).
Proof.
  intros W M U Ha Hb.
  destruct (unions_from_inv gi g0 g ops W M U) as [I S].
  destruct (union_set_sound _ g a b I Ha Hb)
    as (res & g' & Hu & I' & _ & Hres).
  destruct (unions_from_inv gi g0 g' (ops ++ [(a, b)]) W M) as [_ S'].
  { eapply unions_more; eassumption. }
  destruct (union_set_spec _ g a b I Ha Hb)
    as (ra & rb & g1 & Hra & Hrb & C & [[E Hu'] | (Hne & g2 & Hu' & L)]);
    rewrite Hu in Hu'; inversion Hu'; subst; clear Hu'.
  - exists false, g1, rb, rb. rewrite Z.eqb_refl.
    do 4 (split; [reflexivity || assumption|]).
    split; [intros _; apply Hres|].
    split; [intros []; reflexivity|].
    split; assumption.
  - exists true, g2, ra, rb.
    destruct (Z.eqb_spec ra rb) as [|_]; [contradiction|].
    do 4 (split; [reflexivity || assumption|]).
    split; [intros; contradiction|].
    split; [|split; assumption].
    intros _. cbn zeta.
    pose proof (compress_inv _ _ _ I C) as I1.
    destruct (root_rank _ g a ra I Ha Hra) as (Dra & _).
    destruct (root_rank _ g b rb I Hb Hrb) as (Drb & _).
    destruct Hres as (_ & _ & Hmerge).
    destruct (Z.ltb_spec (rk g ra) (rk g rb)) as [Hlt|Hge].
    + split; [lia|].
      split; [exact (link_parent_l _ g1 g2 rb ra I1 Dra L)|].
      split.
      { rewrite (link_rk_w _ g1 g2 rb ra I1 Drb L), !(compress_rk _ _ _ C).
        destruct (Z.eqb_spec (rk g rb) (rk g ra)),
                 (Z.eqb_spec (rk g ra) (rk g rb)); lia. }
      split; [|exact Hmerge].
      intros j Hj. rewrite (link_rk_other _ g1 g2 rb ra I1 Drb L j Hj).
      apply (compress_rk _ _ _ C).
    + split; [lia|].
      split; [exact (link_parent_l _ g1 g2 ra rb I1 Drb L)|].
      split.
      { rewrite (link_rk_w _ g1 g2 ra rb I1 Dra L), !(compress_rk _ _ _ C).
        reflexivity. }
      split; [|exact Hmerge].
      intros j Hj. rewrite (link_rk_other _ g1 g2 ra rb I1 Dra L j Hj).
      apply (compress_rk _ _ _ C).
Qed.

Lemma union_set_correct_witness :
  wf_graph square = true /\ make_set square = Some square_sets /\
  unions_from (registered square) square_sets [(0, 1); (2, 3)] square_pairs /\
  In 1 (registered square) /\ In 3 (registered square) /\
  exists res g' ra rb,
    union_set 1 3 square_pairs = Some (res, g') /\
    root square_pairs 1 ra /\ root square_pairs 3 rb /\
    res = negb (ra =? rb) /\
    (ra = rb ->
     forall x y, same_set g' x y <-> same_set square_pairs x y) /\
    (ra <> rb ->
     let w := if rk square_pairs ra <? rk square_pairs rb then rb else ra in
     let l := if rk square_pairs ra <? rk square_pairs rb then ra else rb in
     rk square_pairs l <= rk square_pairs w /\
     vat (parent g') l = Some w /\
     rk g' w = (if rk square_pairs ra =? rk square_pairs rb
                then rk square_pairs w + 1 else rk square_pairs w) /\
     (forall j, j <> w -> rk g' j = rk square_pairs j) /\
     forall x y,
       In x (registered square) -> In y (registered square) ->
       (same_set g' x y <->
        same_set square_pairs x y
        \/ (same_set square_pairs x 1 /\ same_set square_pairs 3 y)
        \/ (same_set square_pairs x 3 /\ same_set square_pairs 1 y))) /\
    (forall x y,
        In x (registered square) -> In y (registered square) ->
        (same_set square_pairs x y <-> conn [(0, 1); (2, 3)] x y)) /\
    (forall x y,
        In x (registered square) -> In y (registered square) ->
        (same_set g' x y <-> conn ([(0, 1); (2, 3)] ++ [(1, 3)]) x y)).
Proof.
  split; [vm_compute; reflexivity|].
  split; [vm_compute; reflexivity|].
  split; [exact square_pairs_reachable|].
  split; [vm_compute; auto|].
  split; [vm_compute; auto|].
  apply (union_set_correct square square_sets square_pairs
                           [(0, 1); (2, 3)] 1 3).
  - vm_compute. reflexivity.
  - vm_compute. reflexivity.
  - exact square_pairs_reachable.
  - vm_compute. auto.
  - vm_compute. auto.
Defined.

(** * Further properties *)

(** ** Sorting *)

(** X1: [mergeEdges] applied to two ascending lists returns an
    ascending rearrangement of their concatenation, in which edges of
    one weight that come from the right operand stand before those that
    come from the left operand. *)
Theorem mergeEdges_merges (l1 l2 : list edge) :
  StronglySorted le_weight l1 -> StronglySorted le_weight l2 ->
  Permutation (l1 ++ l2) (mergeEdges l1 l2) /\
  StronglySorted le_weight (mergeEdges l1 l2) /\
  forall w, ties w (mergeEdges l1 l2) = ties w l2 ++ ties w l1.
Proof.
  intros S1 S2. split; [apply mergeEdges_perm|].
  split; [now apply mergeEdges_sorted|].
  intros w. now apply mergeEdges_ties.
Qed.

Lemma mergeEdges_merges_witness :
  StronglySorted le_weight run_left /\ StronglySorted le_weight run_right /\
  Permutation (run_left ++ run_right) (mergeEdges run_left run_right) /\
  StronglySorted le_weight (mergeEdges run_left run_right) /\
  forall w, ties w (mergeEdges run_left run_right)
            = ties w run_right ++ ties w run_left.
Proof.
  assert (S1 : StronglySorted le_weight run_left)
    by (repeat constructor; unfold le_weight; cbn; lia).
  assert (S2 : StronglySorted le_weight run_right)
    by (repeat constructor; unfold le_weight; cbn; lia).
  split; [exact S1|]. split; [exact S2|].
  exact (mergeEdges_merges run_left run_right S1 S2).
Defined.

Lemma sortEdges_small_step (low hi : Z) :
  - 2 ^ 30 <= low < 2 ^ 30 -> - 2 ^ 30 <= hi < 2 ^ 30 ->
  add_int low hi = low + hi.
Proof.
  intros. apply add_int_small. unfold in_range, min_int, max_int. lia.
Qed.

Lemma sortEdges_succ (mid : Z) :
  - 2 ^ 30 <= mid < 2 ^ 30 -> add_int mid 1 = mid + 1.
Proof.
  intros. apply add_int_small. unfold in_range, min_int, max_int. lia.
Qed.

Lemma quot2_bounds (s : Z) :
  (0 <= s -> 2 * Z.quot s 2 <= s < 2 * Z.quot s 2 + 2) /\
  (s < 0 -> 2 * Z.quot s 2 - 2 < s <= 2 * Z.quot s 2).
Proof. Z.to_euclidean_division_equations. lia. Qed.

Lemma sortEdges_S (fuel : nat) (v : list edge) (low hi : Z) :
  sortEdges (S fuel) v low hi =
  if low =? hi then
    match vat v low with Some e => Some [e] | None => None end
  else
    match sortEdges fuel v low (Z.quot (add_int low hi) 2) with
    | None => None
    | Some lower =>
        match sortEdges fuel v (add_int (Z.quot (add_int low hi) 2) 1) hi with
        | None => None
        | Some upper => Some (mergeEdges lower upper)
        end
    end.
Proof. reflexivity. Qed.

(** With the upper bound below the lower one [sortEdges] does not
    return. *)
Lemma sortEdges_crossed (fuel : nat) (v : list edge) :
  forall low hi,
    - 2 ^ 30 <= hi -> hi < low -> low < 2 ^ 30 ->
    sortEdges fuel v low hi = None.
Proof.
  induction fuel as [|fuel IH]; intros low hi H1 H2 H3; [reflexivity|].
  rewrite sortEdges_S. destruct (Z.eqb_spec low hi); [lia|].
  rewrite sortEdges_small_step by lia.
  destruct (quot2_bounds (low + hi)) as [Hpos Hneg].
  set (mid := Z.quot (low + hi) 2) in *.
  destruct (Z_lt_le_dec (low + hi) 0) as [Hs|Hs].
  - specialize (Hneg Hs).
    destruct (Z.eq_dec (hi + 1) low) as [E|E].
    + assert (Hmid : mid = low) by lia.
      assert (low <= 0) by lia.
      rewrite sortEdges_succ by lia.
      rewrite (IH (mid + 1) hi) by lia.
      destruct (sortEdges fuel v low mid); reflexivity.
    + rewrite (IH low mid) by lia. reflexivity.
  - specialize (Hpos Hs). rewrite (IH low mid) by lia. reflexivity.
Qed.

(** With a lower bound below 0 [sortEdges] does not return. *)
Lemma sortEdges_negative (fuel : nat) (v : list edge) :
  forall low hi,
    - 2 ^ 30 <= low -> low < 0 -> low <= hi -> hi < 2 ^ 30 ->
    sortEdges fuel v low hi = None.
Proof.
  induction fuel as [|fuel IH]; intros low hi H1 H2 H3 H4; [reflexivity|].
  rewrite sortEdges_S. destruct (Z.eqb_spec low hi) as [->|Hne].
  - unfold vat. destruct (Z.ltb_spec hi 0); [reflexivity | lia].
  - rewrite sortEdges_small_step by lia.
    destruct (quot2_bounds (low + hi)) as [Hpos Hneg].
    set (mid := Z.quot (low + hi) 2) in *.
    rewrite (IH low mid); [reflexivity | lia | lia | | ].
    + destruct (Z_lt_le_dec (low + hi) 0) as [Hs|Hs];
        [specialize (Hneg Hs) | specialize (Hpos Hs)]; lia.
    + destruct (Z_lt_le_dec (low + hi) 0) as [Hs|Hs];
        [specialize (Hneg Hs) | specialize (Hpos Hs)]; lia.
Qed.

(** With an upper bound past the end [sortEdges] does not return. *)
Lemma sortEdges_past_end (fuel : nat) (v : list edge) :
  forall low hi,
    0 <= low -> low <= hi -> Z.of_nat (length v) <= hi -> hi < 2 ^ 30 ->
    sortEdges fuel v low hi = None.
Proof.
  induction fuel as [|fuel IH]; intros low hi H1 H2 H3 H4; [reflexivity|].
  rewrite sortEdges_S. destruct (Z.eqb_spec low hi) as [->|Hne].
  - destruct (vat v hi) as [e0|] eqn:Hv; [|reflexivity].
    apply vat_bound in Hv. lia.
  - rewrite sortEdges_small_step by lia.
    destruct (quot2_bounds (low + hi)) as [Hpos _].
    specialize (Hpos ltac:(lia)).
    set (mid := Z.quot (low + hi) 2) in *.
    rewrite sortEdges_succ by lia.
    rewrite (IH (mid + 1) hi) by lia.
    destruct (sortEdges fuel v low mid); reflexivity.
Qed.

Lemma sortEdges_fuel_mono (fuel : nat) (v : list edge) :
  forall low hi r,
    sortEdges fuel v low hi = Some r ->
    sortEdges (S fuel) v low hi = Some r.
Proof.
  induction fuel as [|fuel IH]; intros low hi r H; [discriminate|].
  rewrite sortEdges_S in H. rewrite (sortEdges_S (S fuel)).
  destruct (low =? hi); [exact H|].
  destruct (sortEdges fuel v low _) as [lower|] eqn:E1; [|discriminate].
  destruct (sortEdges fuel v (add_int _ 1) hi) as [upper|] eqn:E2;
    [|discriminate].
  now rewrite (IH _ _ _ E1), (IH _ _ _ E2).
Qed.

(** X2: whenever [sortEdges] returns, its bounds were valid indices
    of the vector, [0 <= low <= hi < size], and what it returns is the
    ascending rearrangement of the slice between them (edges of equal
    weight in reverse order); with any other bounds it throws or never
    comes back. *)
Theorem sortEdges_returns_in_bounds
        (fuel : nat) (v : list edge) (low hi : Z) (r : list edge) :
  - 2 ^ 30 <= low < 2 ^ 30 -> - 2 ^ 30 <= hi < 2 ^ 30 ->
  Z.of_nat (length v) <= 2 ^ 30 ->
  sortEdges fuel v low hi = Some r ->
  0 <= low <= hi /\ hi < Z.of_nat (length v) /\
  Permutation (slice v low hi) r /\ StronglySorted le_weight r /\
  forall w, ties w r = rev (ties w (slice v low hi)).
Proof.
  intros Hlow Hhi Hlen H.
  assert (B : 0 <= low <= hi /\ hi < Z.of_nat (length v)).
  { destruct (Z_lt_le_dec hi low) as [C|C].
    { rewrite sortEdges_crossed in H by lia. discriminate. }
    destruct (Z_lt_le_dec low 0) as [N|N].
    { rewrite sortEdges_negative in H by lia. discriminate. }
    destruct (Z_lt_le_dec hi (Z.of_nat (length v))) as [P|P]; [lia|].
    rewrite sortEdges_past_end in H by lia. discriminate. }
  split; [apply B|]. split; [apply B|].
  destruct (sortEdges_spec (fuel + Z.to_nat (hi - low + 1)) v low hi)
    as (r' & Hr' & Spec); [lia | lia | lia | lia |].
  assert (E : sortEdges (fuel + Z.to_nat (hi - low + 1)) v low hi = Some r).
  { rewrite Nat.add_comm. generalize (Z.to_nat (hi - low + 1)).
    intros n. induction n as [|n IHn]; [exact H|].
    cbn [Nat.add]. now apply sortEdges_fuel_mono. }
  rewrite E in Hr'. inversion Hr'; subst r'. exact Spec.
Qed.

Lemma sortEdges_returns_in_bounds_witness :
  - 2 ^ 30 <= 0 < 2 ^ 30 /\ - 2 ^ 30 <= 1 < 2 ^ 30 /\
  Z.of_nat (length run_left) <= 2 ^ 30 /\
  sortEdges 2 run_left 0 1 = Some run_left /\
  0 <= 0 <= 1 /\ 1 < Z.of_nat (length run_left) /\
  Permutation (slice run_left 0 1) run_left /\
  StronglySorted le_weight run_left /\
  forall w, ties w run_left = rev (ties w (slice run_left 0 1)).
Proof.
  split; [lia|]. split; [lia|]. split; [cbn; lia|].
  split; [reflexivity|].
  apply (sortEdges_returns_in_bounds 2 run_left 0 1 run_left);
    [lia | lia | cbn; lia | reflexivity].
Defined.

(** X3: [sort] applied twice leaves the edges in ascending order of
    weight with the edges of equal weight in their order in the input:
    the second call undoes the reversal of the ties made by the first. *)
Theorem sort_twice_stable (g : Graph) :
  Z.of_nat (length (edges g)) <= 2 ^ 30 ->
  exists g1 g2,
    sort g = Some g1 /\ sort g1 = Some g2 /\
    Permutation (edges g) (edges g2) /\
    StronglySorted le_weight (edges g2) /\
    forall w, ties w (edges g2) = ties w (edges g).
Proof.
  intros Hlen.
  destruct (sort_spec g Hlen) as (s1 & S1 & P1 & _ & T1).
  assert (Hlen1 : Z.of_nat (length (edges (set_edges s1 g))) <= 2 ^ 30).
  { cbn [set_edges edges]. now rewrite <- (Permutation_length P1). }
  destruct (sort_spec _ Hlen1) as (s2 & S2 & P2 & Ss2 & T2).
  cbn [set_edges edges] in P2, T2.
  exists (set_edges s1 g), (set_edges s2 (set_edges s1 g)).
  split; [exact S1|]. split; [exact S2|]. cbn [set_edges edges].
  split; [now rewrite P1|]. split; [exact Ss2|].
  intros w. now rewrite T2, T1, rev_involutive.
Qed.

Lemma sort_twice_stable_witness :
  Z.of_nat (length (edges tie_graph)) <= 2 ^ 30 /\
  exists g1 g2,
    sort tie_graph = Some g1 /\ sort g1 = Some g2 /\
    Permutation (edges tie_graph) (edges g2) /\
    StronglySorted le_weight (edges g2) /\
    forall w, ties w (edges g2) = ties w (edges tie_graph).
Proof.
  split; [vm_compute; discriminate|].
  apply (sort_twice_stable tie_graph). vm_compute. discriminate.
Defined.

(** ** Disjoint sets *)





Lemma unions_from_frame (gi g0 g : Graph) (ops : list (Z * Z)) :
  wf_graph gi = true -> make_set gi = Some g0 ->
  unions_from (registered gi) g0 ops g ->
  frame (registered gi) g0 g.
Proof.
  intros W M U. induction U as [|ops g a b res g' U IH Ha Hb Hu];
    [apply frame_refl|].
  destruct (unions_from_inv gi g0 g ops W M U) as [I _].
  destruct (union_set_sound _ g a b I Ha Hb) as (res' & g'' & Hu' & _ & F & _).
  rewrite Hu in Hu'. inversion Hu'; subst. eapply frame_trans; eassumption.
Qed.

(** X5: whatever unions have been made since, [make_set] puts the
    engine back into the state it left the first time: every run starts
    from the same disjoint sets. *)
Theorem make_set_reinitialises
        (gi g0 g : Graph) (ops : list (Z * Z)) :
  wf_graph gi = true -> make_set gi = Some g0 ->
  unions_from (registered gi) g0 ops g ->
  make_set g = Some g0.
Proof.
  intros W M U. eapply make_set_again; [exact W | exact M|].
  now apply (unions_from_frame gi g0 g ops).
Qed.

Lemma find_set_parent (fuel : nat) (a : Z) (g : Graph) (r : Z) (g' : Graph) :
  find_set fuel a g = Some (r, g') -> vat (parent g') a = Some r.
Proof.
  destruct fuel as [|fuel]; [discriminate|]. cbn [find_set]. unfold vget.
  destruct (vat (parent g) a) as [pa|] eqn:Hpa; [|discriminate].
  cbn [mbind option_bind]. destruct (Z.eqb_spec pa a) as [->|Hne].
  - intros [= <- <-]. exact Hpa.
  - destruct (find_set fuel pa g) as [[r1 g1]|]; [|discriminate].
    cbn [mbind option_bind].
    destruct (vset (parent g1) a r1) as [p'|] eqn:Hs; [|discriminate].
    cbn [mbind option_bind]. intros [= <- <-]. cbn [parent set_parent].
    apply vset_Some in Hs as [Hr ->]. now apply vat_insert_eq.
Qed.

(** A second [find_set] on a compressed slot changes nothing. *)
Lemma find_set_again (a r : Z) (g : Graph) :
  vat (parent g) a = Some r -> vat (parent g) r = Some r ->
  find_set (find_fuel g) a g = Some (r, g).
Proof.
  intros Ha Hr. pose proof (vat_bound _ _ _ Ha) as Hb.
  unfold find_fuel. destruct (length (parent g)) as [|n] eqn:E; [lia|].
  rewrite <- E in Hb. clear E.
  cbn [find_set]. unfold vget. rewrite Ha. cbn [mbind option_bind].
  destruct (Z.eqb_spec r a) as [->|Hne]; [reflexivity|].
  rewrite Hr. cbn [mbind option_bind]. rewrite Z.eqb_refl.
  cbn [mbind option_bind].
  rewrite (vset_in_range (parent g) a r Hb). cbn [mbind option_bind].
  apply vat_Some in Ha as [_ Ha]. rewrite (list_insert_id _ _ _ Ha).
  now destruct g.
Qed.

(** X6: on an engine reached from [make_set] by unions, [find_set]
    on a registered slot returns the representative; afterwards the slot
    points straight at it, the ranks and the components are as before,
    and a second call returns the same representative and changes
    nothing. *)
Theorem find_set_compresses
        (gi g0 g : Graph) (ops : list (Z * Z)) (a : Z) :
  wf_graph gi = true -> make_set gi = Some g0 ->
  unions_from (registered gi) g0 ops g -> In a (registered gi) ->
  exists r g',
    find_set (find_fuel g) a g = Some (r, g') /\
    root g a r /\
    vat (parent g') a = Some r /\ vat (parent g') r = Some r /\
    rnk g' = rnk g /\
    (forall x y, same_set g' x y <-> same_set g x y) /\
    find_set (find_fuel g') a g' = Some (r, g').
Proof.
  intros W M U Ha.
  destruct (unions_from_inv gi g0 g ops W M U) as [I _].
  destruct (find_set_spec _ _ a g I Ha (find_fuel_enough _ g a I Ha))
    as (r & g' & F & Hr & C).
  exists r, g'. split; [exact F|]. split; [exact Hr|].
  pose proof (find_set_parent _ _ _ _ _ F) as Pa.
  assert (Pr : vat (parent g') r = Some r).
  { apply (compress_is_root _ _ _ C). eapply root_is_root, Hr. }
  split; [exact Pa|]. split; [exact Pr|].
  split; [apply C|]. split; [apply (compress_same_set _ _ _ C)|].
  now apply find_set_again.
Qed.

Lemma find_set_compresses_witness :
  wf_graph square = true /\ make_set square = Some square_sets /\
  unions_from (registered square) square_sets
              [(0, 1); (2, 3); (1, 3)] square_joined /\
  In 3 (registered square) /\
  vat (parent square_joined) 3 = Some 2 /\
  vat (parent square_joined) 2 = Some 0 /\
  exists r g',
    find_set (find_fuel square_joined) 3 square_joined = Some (r, g') /\
    root square_joined 3 r /\
    vat (parent g') 3 = Some r /\ vat (parent g') r = Some r /\
    rnk g' = rnk square_joined /\
    (forall x y, same_set g' x y <-> same_set square_joined x y) /\
    find_set (find_fuel g') 3 g' = Some (r, g').
Proof.
  split; [vm_compute; reflexivity|]. split; [vm_compute; reflexivity|].
  split; [exact square_joined_reachable|]. split; [vm_compute; auto|].
  split; [reflexivity|]. split; [reflexivity|].
  apply (find_set_compresses square square_sets square_joined
                             [(0, 1); (2, 3); (1, 3)] 3).
  - vm_compute. reflexivity.
  - vm_compute. reflexivity.
  - exact square_joined_reachable.
  - vm_compute. auto.
Defined.

Lemma make_set_reinitialises_witness :
  wf_graph square = true /\ make_set square = Some square_sets /\
  unions_from (registered square) square_sets
              [(0, 1); (2, 3); (1, 3)] square_joined /\
  parent square_joined <> parent square_sets /\
  rnk square_joined <> rnk square_sets /\
  make_set square_joined = Some square_sets.
Proof.
  split; [vm_compute; reflexivity|]. split; [vm_compute; reflexivity|].
  split; [exact square_joined_reachable|].
  split; [discriminate|]. split; [discriminate|].
  apply (make_set_reinitialises square square_sets square_joined
                                [(0, 1); (2, 3); (1, 3)]).
  - vm_compute. reflexivity.
  - vm_compute. reflexivity.
  - exact square_joined_reachable.
Defined.

(** X7: [union_set] joins the same components whichever way round
    its arguments are given: [union_set a b] and [union_set b a] return
    the same boolean and leave the same partition of the registered
    slots (only the surviving representative may differ); on a slot and
    itself it returns [false]. *)
Theorem union_set_symmetric
        (gi g0 g : Graph) (ops : list (Z * Z)) (a b : Z) :
  wf_graph gi = true -> make_set gi = Some g0 ->
  unions_from (registered gi) g0 ops g ->
  In a (registered gi) -> In b (registered gi) ->
  exists res g1 g2,
    union_set a b g = Some (res, g1) /\
    union_set b a g = Some (res, g2) /\
    (a = b -> res = false) /\
    forall x y,
      In x (registered gi) -> In y (registered gi) ->
      (same_set g1 x y <-> same_set g2 x y).
Proof.
  intros W M U Ha Hb.
  destruct (unions_from_inv gi g0 g ops W M U) as [I _].
  destruct (union_set_sound _ g a b I Ha Hb)
    as (r1 & g1 & U1 & _ & _ & H1).
  destruct (union_set_sound _ g b a I Hb Ha)
    as (r2 & g2 & U2 & _ & _ & H2).
  assert (Hrefl : same_set g a a).
  { destruct (root_total _ g a I Ha) as [r Hr]. exists r. auto. }
  destruct r1, r2.
  - exists true, g1, g2. split; [exact U1|]. split; [exact U2|].
    destruct H1 as (N1 & _ & S1), H2 as (_ & _ & S2).
    split; [intros ->; contradiction|].
    intros x y Hx Hy. rewrite (S1 x y Hx Hy), (S2 x y Hx Hy). tauto.
  - destruct H1 as (N1 & _), H2 as (S2 & _).
    exfalso. apply N1. now apply same_set_sym.
  - destruct H1 as (S1 & _), H2 as (N2 & _).
    exfalso. apply N2. now apply same_set_sym.
  - exists false, g1, g2. split; [exact U1|]. split; [exact U2|].
    split; [reflexivity|].
    destruct H1 as (_ & _ & S1), H2 as (_ & _ & S2).
    intros x y _ _. now rewrite S1, S2.
Qed.

Lemma union_set_symmetric_witness :
  wf_graph triangle = true /\ make_set triangle = Some triangle_sets /\
  unions_from (registered triangle) triangle_sets [] triangle_sets /\
  In 0 (registered triangle) /\ In 1 (registered triangle) /\
  exists res g1 g2,
    union_set 0 1 triangle_sets = Some (res, g1) /\
    union_set 1 0 triangle_sets = Some (res, g2) /\
    (0 = 1 -> res = false) /\
    forall x y,
      In x (registered triangle) -> In y (registered triangle) ->
      (same_set g1 x y <-> same_set g2 x y).
Proof.
  split; [vm_compute; reflexivity|]. split; [vm_compute; reflexivity|].
  split; [apply unions_none|]. split; [vm_compute; auto|].
  split; [vm_compute; auto|].
  apply (union_set_symmetric triangle triangle_sets triangle_sets [] 0 1).
  - vm_compute. reflexivity.
  - vm_compute. reflexivity.
  - apply unions_none.
  - vm_compute. auto.
  - vm_compute. auto.
Defined.

(** X8: in every engine reached from [make_set] by unions the two
    vectors have [numVertices] slots, the parent of a registered slot is
    a registered slot, the chain of parents of a registered slot ends at
    a representative, and the rank of a registered slot lies in
    [[0, numVertices)]: no access of [find_set] or [union_set] leaves
    the vectors and the increment of a rank cannot overflow. *)
Theorem reachable_engine_safe
        (gi g0 g : Graph) (ops : list (Z * Z)) (a : Z) :
  wf_graph gi = true -> make_set gi = Some g0 ->
  unions_from (registered gi) g0 ops g -> In a (registered gi) ->
  Z.of_nat (length (parent g)) = numVertices gi /\
  Z.of_nat (length (rnk g)) = numVertices gi /\
  (exists p, vat (parent g) a = Some p /\ In p (registered gi)) /\
  (exists r, root g a r /\ In r (registered gi)) /\
  (exists k, vat (rnk g) a = Some k /\ 0 <= k < numVertices gi).
Proof.
  intros W M U Ha.
  destruct (unions_from_inv gi g0 g ops W M U) as [I _].
  pose proof (unions_from_frame gi g0 g ops W M U) as F.
  destruct (make_set_spec gi W) as (g0' & M' & _ & _ & _ & _ & Lp & Lr & _).
  rewrite M in M'. inversion M'; subst g0'. clear M'.
  pose proof W as (HV & Hreg & _)%wf_graph_spec.
  assert (LP : Z.of_nat (length (parent g)) = numVertices gi).
  { rewrite (fr_len_parent _ _ _ F), Lp. lia. }
  split; [exact LP|].
  split; [rewrite (fr_len_rnk _ _ _ F), Lr; lia|].
  destruct (vat_is_Some (parent g) a (inv_range _ _ I a Ha)) as [p Hp].
  split; [exists p; split; [exact Hp | eapply inv_parent; eassumption]|].
  destruct (root_total _ g a I Ha) as [r Hr].
  destruct (root_rank _ g a r I Ha Hr) as (Dr & _).
  split; [exists r; auto|].
  exists (rk g a). split; [now apply (vat_rk (registered gi))|].
  pose proof (inv_rank_bound _ _ I a Ha) as [H0 Hb].
  assert (Hpos : (1 <= roots (registered gi) g)%nat).
  { unfold roots. apply (filter_length_pos _ _ r Dr).
    apply is_root_true. eapply root_is_root, Hr. }
  pose proof (inv_card _ _ I). lia.
Qed.

Lemma reachable_engine_safe_witness :
  wf_graph square = true /\ make_set square = Some square_sets /\
  unions_from (registered square) square_sets
              [(0, 1); (2, 3); (1, 3)] square_joined /\
  In 2 (registered square) /\
  parent square_joined = [0; 0; 0; 2] /\ rnk square_joined = [2; 0; 1; 0] /\
  Z.of_nat (length (parent square_joined)) = numVertices square /\
  Z.of_nat (length (rnk square_joined)) = numVertices square /\
  (exists p, vat (parent square_joined) 2 = Some p /\
             In p (registered square)) /\
  (exists r, root square_joined 2 r /\ In r (registered square)) /\
  (exists k, vat (rnk square_joined) 2 = Some k /\
             0 <= k < numVertices square).
Proof.
  split; [vm_compute; reflexivity|]. split; [vm_compute; reflexivity|].
  split; [exact square_joined_reachable|]. split; [vm_compute; auto|].
  split; [reflexivity|]. split; [reflexivity|].
  apply (reachable_engine_safe square square_sets square_joined
                               [(0, 1); (2, 3); (1, 3)] 2).
  - vm_compute. reflexivity.
  - vm_compute. reflexivity.
  - exact square_joined_reachable.
  - vm_compute. auto.
Defined.

(** ** The classic computation *)

Section Verdicts.
Variable g0 : Graph.

(** One verdict keeps the invariant, and a rejected edge with
    registered ends had its ends connected by the edges accepted
    before it. *)
Lemma decisions_head_inv (g : Graph) (done : list (edge * bool))
      (e : edge) (res : bool) (g1 : Graph) :
  kruskal_inv g0 g done ->
  (if resolvable g e
   then union_set (getIndex g (src e)) (getIndex g (dst e)) g
   else Some (false, g)) = Some (res, g1) ->
  kruskal_inv g0 g1 (done ++ [(e, res)]) /\
  (res = false -> resolvable g0 e = true ->
   conn (map (endpoints g0) (accepted_edges done))
        (getIndex g0 (src e)) (getIndex g0 (dst e))).
Proof.
  intros K H. pose proof (k_vertices _ _ _ K) as V.
  rewrite (resolvable_same g0 g e V), !(getIndex_same g0 g _ V) in H.
  destruct (resolvable g0 e) eqn:Res.
  - destruct (resolvable_true g0 e Res) as [Da Db].
    destruct (union_set_sound _ g _ _ (k_dsu _ _ _ K) Da Db)
      as (res' & g1' & U & I1 & F1 & Hres).
    rewrite U in H. inversion H; subst res' g1'. clear H.
    destruct res.
    + destruct Hres as (Hns & R & S). split; [|discriminate].
      eapply kruskal_inv_accept; try eassumption. apply F1.
    + destruct Hres as (Hs & R & S). split.
      * eapply kruskal_inv_reject; try eassumption. apply F1.
      * intros _ _. now apply (k_same _ _ _ K).
  - inversion H; subst res g1. split; [|discriminate].
    eapply kruskal_inv_reject; try eassumption; try reflexivity. apply K.
Qed.

Lemma decisions_prefix (es : list edge) :
  forall (g : Graph) (done ds : list (edge * bool)) (g' : Graph),
    kruskal_inv g0 g done ->
    decisions es g = Some (ds, g') ->
    forall d1 e d2,
      ds = d1 ++ (e, false) :: d2 -> resolvable g0 e = true ->
      conn (map (endpoints g0) (accepted_edges (done ++ d1)))
           (getIndex g0 (src e)) (getIndex g0 (dst e)).
Proof.
  induction es as [|e0 es IH]; intros g done ds g' K D d1 e d2 E Res.
  - cbn in D. inversion D; subst. destruct d1; discriminate.
  - cbn [decisions] in D.
    destruct (if resolvable g e0 then _ else _) as [[res g1]|] eqn:Hd;
      [|discriminate].
    cbn [mbind option_bind] in D.
    destruct (decisions es g1) as [[ds' g2]|] eqn:D'; [|discriminate].
    cbn [mbind option_bind] in D. injection D as Hds Hg. subst g2.
    rewrite <- Hds in E. clear Hds ds.
    destruct (decisions_head_inv g done e0 res g1 K Hd) as [K1 Hrej].
    destruct d1 as [|x d1].
    + cbn [app] in E. inversion E; subst e0 res ds'.
      rewrite app_nil_r. now apply Hrej.
    + cbn [app] in E. inversion E; subst x ds'.
      pose proof (IH g1 _ _ g' K1 D' d1 e d2 eq_refl Res) as C.
      now rewrite <- app_assoc in C.
Qed.

End Verdicts.

Lemma sorted_prefix_le (l1 l2 : list edge) (x : edge) :
  StronglySorted le_weight (l1 ++ x :: l2) ->
  forall y, In y l1 -> weight y <= weight x.
Proof.
  induction l1 as [|z l1 IH]; intros S y Hy; [destruct Hy|].
  cbn [app] in S. apply StronglySorted_inv in S as [S F].
  destruct Hy as [<-|Hy]; [|now apply IH].
  rewrite List.Forall_forall in F. apply (F x).
  apply in_or_app. right. now left.
Qed.

Lemma accepted_edges_sorted (ds : list (edge * bool)) :
  StronglySorted le_weight (map fst ds) ->
  StronglySorted le_weight (accepted_edges ds).
Proof.
  induction ds as [|[e v] ds IH]; intros S; [constructor|].
  cbn [map fst] in S. apply StronglySorted_inv in S as [S F].
  unfold accepted_edges in *. cbn [List.filter snd].
  destruct v; [|now apply IH]. cbn [map fst]. constructor; [now apply IH|].
  rewrite List.Forall_forall in *. intros y Hy. apply F.
  apply in_map_iff in Hy as (d & <- & Hd%List.filter_In).
  apply in_map. apply Hd.
Qed.

Lemma accepted_edges_In (ds : list (edge * bool)) (e : edge) :
  In e (accepted_edges ds) <-> In (e, true) ds.
Proof.
  unfold accepted_edges. rewrite in_map_iff. split.
  - intros ([e' v] & <- & [H Hv]%List.filter_In). cbn in *. now subst v.
  - intros H. exists (e, true). split; [reflexivity|].
    apply List.filter_In. auto.
Qed.

(** X9: every edge returned by [mst] is an edge of the engine whose
    two names are registered, with two different indices (so an edge
    from a vertex to itself is never returned), and the edges are
    returned in ascending order of weight. *)
Theorem mst_returns_sorted_registered_edges (g : Graph) :
  wf_graph g = true ->
  exists acc cost g',
    mst g = Some (acc, cost, g') /\
    StronglySorted le_weight acc /\
    forall e,
      In e acc ->
      In e (edges g) /\
      is_Some (vertices g !! src e) /\ is_Some (vertices g !! dst e) /\
      getIndex g (src e) <> getIndex g (dst e).
Proof.
  intros W.
  destruct (run_spec g W)
    as (sorted & gm & ds & g' & S & (P & Ss & _) & M & E & D & K & _ & Hfst).
  exists (accepted_edges ds), (cost_of 0 ds), g'.
  split; [exact (mst_run g sorted gm ds g' S M E D)|].
  split; [apply accepted_edges_sorted; now rewrite Hfst|].
  intros e He. pose proof He as Hd%accepted_edges_In.
  split.
  { eapply Permutation_in; [symmetry; exact P|]. rewrite <- Hfst.
    now apply (in_map fst) in Hd. }
  pose proof (k_resolvable _ _ _ K e Hd) as Res.
  unfold resolvable in Res. apply andb_true_iff in Res as [R1 R2].
  apply Z.leb_le in R1, R2.
  split.
  { unfold getIndex in R1. destruct (vertices g !! src e); [eauto | lia]. }
  split.
  { unfold getIndex in R2. destruct (vertices g !! dst e); [eauto | lia]. }
  apply in_split in He as (l1 & l2 & Hacc).
  pose proof (k_forest _ _ _ K) as F. rewrite Hacc, map_app in F.
  cbn [map] in F. intros Heq.
  apply (forest_bridge _ F _ _ _ _ eq_refl). unfold endpoints.
  rewrite Heq. apply conn_refl.
Qed.

Lemma mst_returns_sorted_registered_edges_witness :
  wf_graph triangle = true /\
  exists acc cost g',
    mst triangle = Some (acc, cost, g') /\
    StronglySorted le_weight acc /\
    forall e,
      In e acc ->
      In e (edges triangle) /\
      is_Some (vertices triangle !! src e) /\
      is_Some (vertices triangle !! dst e) /\
      getIndex triangle (src e) <> getIndex triangle (dst e).
Proof.
  split; [vm_compute; reflexivity|].
  apply (mst_returns_sorted_registered_edges triangle).
  vm_compute. reflexivity.
Defined.

(** The invariant holds before the first verdict. *)
Lemma kruskal_inv_initial (g : Graph) (sorted : list edge) (gm : Graph) :
  wf_graph g = true -> Permutation (edges g) sorted ->
  make_set (set_edges sorted g) = Some gm ->
  kruskal_inv g gm [].
Proof.
  intros W P M.
  assert (W' : wf_graph (set_edges sorted g) = true).
  { apply wf_graph_set_edges; [|exact W]. symmetry.
    now apply Permutation_length. }
  destruct (make_set_spec _ W') as (gm' & M' & V & _).
  rewrite M in M'. inversion M'; subst gm'.
  destruct (make_set_inv _ gm W' M) as (I & R & S0).
  change (registered (set_edges sorted g)) with (registered g) in I, R, S0.
  constructor; cbn [accepted_edges List.filter map length].
  - exact I.
  - exact V.
  - constructor.
  - intros x y Hx Hy. rewrite (S0 x y Hx Hy). split.
    + intros ->. apply conn_refl.
    + apply conn_nil.
  - rewrite R. reflexivity.
  - intros e [].
Qed.

(** X10: the edges returned by [mst] span the graph: two indices are
    connected by the returned edges exactly when they are connected by
    the edges of the engine whose two names are registered. *)
Theorem mst_spans (g : Graph) :
  wf_graph g = true ->
  exists acc cost g',
    mst g = Some (acc, cost, g') /\
    forall x y,
      conn (map (endpoints g) acc) x y <->
      conn (map (endpoints g) (List.filter (resolvable g) (edges g))) x y.
Proof.
  intros W.
  destruct (run_spec g W)
    as (sorted & gm & ds & g' & S & (P & _) & M & E & D & K & _ & Hfst).
  pose proof (kruskal_inv_initial g sorted gm W P M) as K0.
  exists (accepted_edges ds), (cost_of 0 ds), g'.
  split; [exact (mst_run g sorted gm ds g' S M E D)|].
  intros x y. split.
  - apply conn_mono. intros p (e & <- & He)%in_map_iff. apply in_map.
    apply accepted_edges_In in He. apply List.filter_In. split.
    + eapply Permutation_in; [symmetry; exact P|]. rewrite <- Hfst.
      now apply (in_map fst) in He.
    + now apply (k_resolvable _ _ _ K).
  - induction 1 as [x | a b Hin | x y H IH | x y z H1 IH1 H2 IH2].
    + apply conn_refl.
    + apply in_map_iff in Hin as (e & Ee & [He Res]%List.filter_In).
      inversion Ee; subst a b. clear Ee.
      assert (Hs : In e (map fst ds)).
      { rewrite Hfst. eapply Permutation_in; eassumption. }
      apply in_map_iff in Hs as ([e' v] & Ee & Hd). cbn in Ee. subst e'.
      destruct v.
      * apply conn_pair. apply (in_map (endpoints g)).
        now apply accepted_edges_In.
      * apply in_split in Hd as (d1 & d2 & Hd).
        pose proof (decisions_prefix g sorted gm [] ds g' K0 D d1 e d2 Hd Res)
          as C.
        cbn [app] in C. eapply conn_mono; [|exact C].
        intros p Hp. rewrite Hd, accepted_edges_app, map_app.
        apply in_or_app. now left.
    + now apply conn_sym.
    + eapply conn_trans; eassumption.
Qed.

Lemma mst_spans_witness :
  wf_graph triangle = true /\
  exists acc cost g',
    mst triangle = Some (acc, cost, g') /\
    forall x y,
      conn (map (endpoints triangle) acc) x y <->
      conn (map (endpoints triangle)
                (List.filter (resolvable triangle) (edges triangle))) x y.
Proof.
  split; [vm_compute; reflexivity|].
  apply (mst_spans triangle). vm_compute. reflexivity.
Defined.

(** X11: for every edge of the engine whose two names are
    registered, accepted or not, the two ends are connected by returned
    edges that are no heavier than it: a rejected edge closes a cycle
    in which it is a heaviest edge. *)
Theorem mst_cycle_property (g : Graph) :
  wf_graph g = true ->
  exists acc cost g',
    mst g = Some (acc, cost, g') /\
    forall e,
      In e (edges g) -> resolvable g e = true ->
      conn (map (endpoints g)
                (List.filter (fun a => weight a <=? weight e) acc))
           (getIndex g (src e)) (getIndex g (dst e)).
Proof.
  intros W.
  destruct (run_spec g W)
    as (sorted & gm & ds & g' & S & (P & Ss & _) & M & E & D & K & _ & Hfst).
  pose proof (kruskal_inv_initial g sorted gm W P M) as K0.
  exists (accepted_edges ds), (cost_of 0 ds), g'.
  split; [exact (mst_run g sorted gm ds g' S M E D)|].
  intros e He Res.
  assert (Hs : In e (map fst ds)).
  { rewrite Hfst. eapply Permutation_in; eassumption. }
  apply in_map_iff in Hs as ([e' v] & Ee & Hd). cbn in Ee. subst e'.
  destruct v.
  - apply conn_pair. apply (in_map (endpoints g)). apply List.filter_In.
    split; [now apply accepted_edges_In | apply Z.leb_le; lia].
  - apply in_split in Hd as (d1 & d2 & Hd).
    pose proof (decisions_prefix g sorted gm [] ds g' K0 D d1 e d2 Hd Res)
      as C.
    cbn [app] in C. eapply conn_mono; [|exact C].
    intros p (x & <- & Hx)%in_map_iff. apply in_map. apply List.filter_In.
    split.
    + rewrite Hd, accepted_edges_app. apply in_or_app. now left.
    + apply Z.leb_le. apply (sorted_prefix_le (map fst d1) (map fst d2) e).
      * rewrite <- Hfst, Hd, map_app in Ss. exact Ss.
      * apply accepted_edges_In in Hx. now apply (in_map fst) in Hx.
Qed.

Lemma mst_cycle_property_witness :
  wf_graph triangle = true /\
  exists acc cost g',
    mst triangle = Some (acc, cost, g') /\
    forall e,
      In e (edges triangle) -> resolvable triangle e = true ->
      conn (map (endpoints triangle)
                (List.filter (fun a => weight a <=? weight e) acc))
           (getIndex triangle (src e)) (getIndex triangle (dst e)).
Proof.
  split; [vm_compute; reflexivity|].
  apply (mst_cycle_property triangle). vm_compute. reflexivity.
Defined.

Lemma wrap_add_l (a b : Z) : wrap (wrap a + b) = wrap (a + b).
Proof.
  unfold wrap, modulus.
  replace ((a + 2 ^ 31) mod 2 ^ 32 - 2 ^ 31 + b + 2 ^ 31)
    with ((a + 2 ^ 31) mod 2 ^ 32 + b) by lia.
  rewrite Zplus_mod_idemp_l. f_equal. f_equal. lia.
Qed.

Lemma cost_of_sum (ds : list (edge * bool)) :
  forall c, cost_of (wrap c) ds = wrap (c + sum_weights (accepted_edges ds)).
Proof.
  induction ds as [|[e v] ds IH]; intros c.
  - cbn. f_equal. lia.
  - unfold cost_of in *. cbn [fold_left snd fst].
    unfold accepted_edges in *. cbn [List.filter snd].
    destruct v.
    + cbn [map fst sum_weights fold_right]. unfold add_int.
      rewrite wrap_add_l, IH. f_equal. unfold sum_weights. lia.
    + apply IH.
Qed.

(** X12: the cost left by [mst] is the sum of the weights of the
    edges it returns, reduced to 32 bits; it is the sum itself whenever
    the sum is an [int]. *)
Theorem mst_cost_is_sum (g : Graph) :
  wf_graph g = true ->
  exists acc cost g',
    mst g = Some (acc, cost, g') /\
    cost = wrap (sum_weights acc) /\
    (in_range (sum_weights acc) -> cost = sum_weights acc).
Proof.
  intros W.
  destruct (run_spec g W) as (sorted & gm & ds & g' & S & _ & M & E & D & _).
  exists (accepted_edges ds), (cost_of 0 ds), g'.
  split; [exact (mst_run g sorted gm ds g' S M E D)|].
  assert (C : cost_of 0 ds = wrap (sum_weights (accepted_edges ds))).
  { change 0 with (wrap 0) at 1. now rewrite cost_of_sum. }
  split; [exact C|]. intros R. rewrite C. now apply wrap_small.
Qed.

Lemma mst_cost_is_sum_witness :
  wf_graph triangle = true /\
  exists acc cost g',
    mst triangle = Some (acc, cost, g') /\
    cost = wrap (sum_weights acc) /\
    (in_range (sum_weights acc) -> cost = sum_weights acc).
Proof.
  split; [vm_compute; reflexivity|].
  apply (mst_cost_is_sum triangle). vm_compute. reflexivity.
Defined.

(** X13: a computation changes the engine only in its two vectors
    and in the order of its edges: afterwards the engine holds the same
    vertex map and counts, every name has the index it had, and the
    edge list is the same edges in ascending order of weight. *)
Theorem mst_leaves_engine (g : Graph) :
  wf_graph g = true ->
  exists acc cost g',
    mst g = Some (acc, cost, g') /\
    vertices g' = vertices g /\
    numVertices g' = numVertices g /\ numEdges g' = numEdges g /\
    (forall name, getIndex g' name = getIndex g name) /\
    Permutation (edges g) (edges g') /\
    StronglySorted le_weight (edges g') /\
    Z.of_nat (length (parent g')) = numVertices g /\
    Z.of_nat (length (rnk g')) = numVertices g.
Proof.
  intros W.
  destruct (run_spec g W)
    as (sorted & gm & ds & g' & S & (P & Ss & _) & M & E & D & K & F & _).
  exists (accepted_edges ds), (cost_of 0 ds), g'.
  split; [exact (mst_run g sorted gm ds g' S M E D)|].
  assert (W' : wf_graph (set_edges sorted g) = true).
  { apply wf_graph_set_edges; [|exact W]. symmetry.
    now apply Permutation_length. }
  destruct (make_set_spec _ W')
    as (gm' & M' & V & _ & NV & NE & Lp & Lr & _).
  rewrite M in M'. inversion M'; subst gm'.
  cbn [set_edges vertices numVertices numEdges] in V, NV, NE, Lp, Lr.
  pose proof W as (HV & _)%wf_graph_spec.
  assert (V' : vertices g' = vertices g)
    by (rewrite (fr_vertices _ _ _ F); exact V).
  split; [exact V'|].
  split; [rewrite (fr_numVertices _ _ _ F); exact NV|].
  split; [rewrite (fr_numEdges _ _ _ F); exact NE|].
  split; [intros name; now apply getIndex_same|].
  rewrite (fr_edges _ _ _ F), E.
  split; [exact P|]. split; [exact Ss|].
  rewrite (fr_len_parent _ _ _ F), (fr_len_rnk _ _ _ F), Lp, Lr. lia.
Qed.

Lemma mst_leaves_engine_witness :
  wf_graph triangle = true /\
  exists acc cost g',
    mst triangle = Some (acc, cost, g') /\
    vertices g' = vertices triangle /\
    numVertices g' = numVertices triangle /\
    numEdges g' = numEdges triangle /\
    (forall name, getIndex g' name = getIndex triangle name) /\
    Permutation (edges triangle) (edges g') /\
    StronglySorted le_weight (edges g') /\
    Z.of_nat (length (parent g')) = numVertices triangle /\
    Z.of_nat (length (rnk g')) = numVertices triangle.
Proof.
  split; [vm_compute; reflexivity|].
  apply (mst_leaves_engine triangle). vm_compute. reflexivity.
Defined.

(** ** The traced computation *)






(** ** When the entry points return *)



(** ** Registration *)

Lemma add_vertices_cons (r : string * Z) (regs : list (string * Z))
      (g : Graph) :
  add_vertices (r :: regs) g = add_vertices regs (addVertex r.1 r.2 g).
Proof. reflexivity. Qed.

Lemma addVertex_edges (name : string) (i : Z) (g : Graph) :
  edges (addVertex name i g) = edges g.
Proof. unfold addVertex. now destruct (vertices g !! name). Qed.

Lemma addVertex_numVertices (name : string) (i : Z) (g : Graph) :
  numVertices (addVertex name i g) = numVertices g.
Proof. unfold addVertex. now destruct (vertices g !! name). Qed.

Lemma addVertex_lookup (name : string) (i : Z) (g : Graph) (name' : string) :
  vertices (addVertex name i g) !! name' =
  match vertices g !! name' with
  | Some j => Some j
  | None => if String.eqb name name' then Some i else None
  end.
Proof.
  unfold addVertex. destruct (String.eqb_spec name name') as [<-|Hne].
  - destruct (vertices g !! name) as [j|] eqn:E.
    + now rewrite E.
    + cbn [vertices set_vertices]. now rewrite lookup_insert_eq.
  - destruct (vertices g !! name) as [j|] eqn:E.
    + now destruct (vertices g !! name').
    + cbn [vertices set_vertices]. rewrite lookup_insert_ne by exact Hne.
      now destruct (vertices g !! name').
Qed.

Lemma add_vertices_lookup (regs : list (string * Z)) :
  forall (g : Graph) (name : string),
    vertices (add_vertices regs g) !! name =
    match vertices g !! name with
    | Some i => Some i
    | None => snd <$> first_registration name regs
    end.
Proof.
  induction regs as [|[n i] regs IH]; intros g name.
  - cbn. now destruct (vertices g !! name).
  - rewrite add_vertices_cons, IH, addVertex_lookup. cbn [fst snd].
    unfold first_registration. cbn [List.find fst].
    destruct (vertices g !! name); [reflexivity|].
    now destruct (String.eqb n name).
Qed.

Lemma add_vertices_frame (regs : list (string * Z)) :
  forall g,
    edges (add_vertices regs g) = edges g /\
    numVertices (add_vertices regs g) = numVertices g.
Proof.
  induction regs as [|r regs IH]; intros g; [auto|].
  rewrite add_vertices_cons.
  destruct (IH (addVertex r.1 r.2 g)) as [-> ->].
  now rewrite addVertex_edges, addVertex_numVertices.
Qed.

(** X15: after any sequence of calls of [addVertex], [getIndex]
    returns for a name the index it had before the calls if it was
    already registered, else the index of the first call that registered
    it, else -1; the calls leave the edges and the vertex count as they
    were. *)
Theorem getIndex_add_vertices
        (regs : list (string * Z)) (g : Graph) (name : string) :
  getIndex (add_vertices regs g) name =
  match vertices g !! name with
  | Some i => i
  | None => match first_registration name regs with
            | Some r => r.2
            | None => -1
            end
  end /\
  edges (add_vertices regs g) = edges g /\
  numVertices (add_vertices regs g) = numVertices g.
Proof.
  split.
  - unfold getIndex. rewrite add_vertices_lookup.
    destruct (vertices g !! name); [reflexivity|].
    now destruct (first_registration name regs).
  - apply add_vertices_frame.
Qed.

Lemma numbered_from_range (names : list string) :
  forall k r,
    In r (numbered_from k names) ->
    Z.of_nat k <= r.2 < Z.of_nat (k + length names).
Proof.
  induction names as [|n names IH]; intros k r H; [destruct H|].
  cbn [numbered_from length] in *. destruct H as [<-|H]; [cbn; lia|].
  apply IH in H. lia.
Qed.

Lemma first_registration_In (name : string) (regs : list (string * Z))
      (r : string * Z) :
  first_registration name regs = Some r -> In r regs /\ r.1 = name.
Proof.
  unfold first_registration. intros H. apply List.find_some in H as [H1 H2].
  split; [exact H1 | now apply String.eqb_eq].
Qed.

Lemma first_registration_numbered (names : list string) :
  forall k i name,
    NoDup names -> names !! i = Some name ->
    first_registration name (numbered_from k names)
    = Some (name, Z.of_nat (k + i)).
Proof.
  induction names as [|n names IH]; intros k i name ND H; [discriminate|].
  apply NoDup_cons in ND as [Hn ND].
  unfold first_registration in *. cbn [numbered_from List.find fst].
  destruct i as [|i]; cbn in H.
  - inversion H; subst n. rewrite String.eqb_refl. do 3 f_equal. lia.
  - destruct (String.eqb_spec n name) as [->|Hne].
    + exfalso. apply Hn. apply list_elem_of_lookup. eauto.
    + rewrite (IH (S k) i name ND H). do 3 f_equal. lia.
Qed.

(** X16: when a caller registers pairwise different names with the
    indices 0, 1, 2, ... in turn on a new engine made for that many
    vertices (what [parseGraphFromText] does with the names it reads),
    the engine is well-formed, [getIndex] returns for each name its
    position, and every index below the vertex count is registered, so
    [make_set] initialises every slot. *)
Theorem numbered_registration (names : list string) (e : Z) :
  NoDup names -> Z.of_nat (length names) <= max_int ->
  wf_graph (add_vertices (numbered names)
                         (new_Graph (Z.of_nat (length names)) e)) = true /\
  (forall i name,
      names !! i = Some name ->
      getIndex (add_vertices (numbered names)
                             (new_Graph (Z.of_nat (length names)) e)) name
      = Z.of_nat i) /\
  (forall i,
      0 <= i < Z.of_nat (length names) ->
      In i (registered (add_vertices (numbered names)
                          (new_Graph (Z.of_nat (length names)) e)))).
Proof.
  intros ND Hmax.
  set (g := add_vertices (numbered names)
                         (new_Graph (Z.of_nat (length names)) e)).
  assert (L : forall name,
             vertices g !! name = snd <$> first_registration name (numbered names)).
  { intros name. unfold g. rewrite add_vertices_lookup.
    cbn [new_Graph vertices]. now rewrite lookup_empty. }
  assert (G : forall i name, names !! i = Some name ->
                             vertices g !! name = Some (Z.of_nat i)).
  { intros i name H. rewrite L. unfold numbered.
    now rewrite (first_registration_numbered names 0 i name ND H). }
  destruct (add_vertices_frame (numbered names)
              (new_Graph (Z.of_nat (length names)) e))
    as (Ee & Ev). fold g in Ee, Ev. cbn [new_Graph edges numVertices] in *.
  split; [|split].
  - apply wf_graph_spec. rewrite Ev, Ee. cbn [length].
    split; [lia|]. split; [|lia].
    intros i (name & Hi)%registered_spec. rewrite L in Hi.
    destruct (first_registration name (numbered names)) as [r|] eqn:F;
      [|discriminate].
    cbn in Hi. inversion Hi; subst i.
    apply first_registration_In in F as [F _].
    apply numbered_from_range in F. lia.
  - intros i name H. unfold getIndex. now rewrite (G i name H).
  - intros i Hi. apply registered_spec.
    destruct (lookup_lt_is_Some_2 names (Z.to_nat i)) as [name Hn]; [lia|].
    exists name. rewrite (G _ _ Hn). f_equal. lia.
Qed.

Lemma numbered_registration_witness :
  NoDup ["A"; "B"; "C"] /\
  Z.of_nat (length ["A"; "B"; "C"]) <= max_int /\
  wf_graph (add_vertices (numbered ["A"; "B"; "C"])
              (new_Graph (Z.of_nat (length ["A"; "B"; "C"])) 3)) = true /\
  (forall i name,
      ["A"; "B"; "C"] !! i = Some name ->
      getIndex (add_vertices (numbered ["A"; "B"; "C"])
                  (new_Graph (Z.of_nat (length ["A"; "B"; "C"])) 3)) name
      = Z.of_nat i) /\
  (forall i,
      0 <= i < Z.of_nat (length ["A"; "B"; "C"]) ->
      In i (registered (add_vertices (numbered ["A"; "B"; "C"])
              (new_Graph (Z.of_nat (length ["A"; "B"; "C"])) 3)))).
Proof.
  assert (ND : NoDup ["A"; "B"; "C"])
    by (apply (bool_decide_unpack _); vm_compute; exact I).
  assert (B : Z.of_nat (length ["A"; "B"; "C"]) <= max_int)
    by (vm_compute; discriminate).
  split; [exact ND|]. split; [exact B|].
  exact (numbered_registration ["A"; "B"; "C"] 3 ND B).
Defined.

(** ** String escaping, continued *)

Lemma needs_escape_cases (c : ascii) :
  needs_escape c = true ->
  c = dquote \/ c = backslash \/ c = newline \/ c = creturn \/ c = tab.
Proof.
  unfold needs_escape. rewrite !orb_true_iff, !Ascii.eqb_eq. tauto.
Qed.

Lemma needs_escape_backslash (c : ascii) :
  needs_escape c = false -> Ascii.eqb c backslash = false.
Proof.
  unfold needs_escape. rewrite !orb_false_iff. tauto.
Qed.

Lemma json_unescape_pair (x : ascii) (rest : string) :
  json_unescape (String backslash (String x rest)) =
  String (if Ascii.eqb x "n" then newline
          else if Ascii.eqb x "r" then creturn
          else if Ascii.eqb x "t" then tab
          else x)
         (json_unescape rest).
Proof. reflexivity. Qed.

Lemma json_unescape_plain (c : ascii) (rest : string) :
  Ascii.eqb c backslash = false ->
  json_unescape (String c rest) = String c (json_unescape rest).
Proof. intros H. cbn [json_unescape]. now rewrite H. Qed.

Lemma json_unescape_escape (s : string) : json_unescape (json_escape s) = s.
Proof.
  induction s as [|c s IH]; [reflexivity|].
  cbn [json_escape]. destruct (needs_escape c) eqn:N.
  - apply needs_escape_cases in N as [-> | [-> | [-> | [-> | ->]]]];
      match goal with
      | |- context [escape_char ?c] =>
          let v := eval vm_compute in (escape_char c) in
          change (escape_char c) with v
      end;
      rewrite !append_cons;
      change (EmptyString +:+ json_escape s) with (json_escape s);
      rewrite json_unescape_pair, IH; reflexivity.
  - rewrite (escape_char_plain c N). unfold str. rewrite append_cons.
    change (EmptyString +:+ json_escape s) with (json_escape s).
    rewrite (json_unescape_plain c _ (needs_escape_backslash c N)).
    now rewrite IH.
Qed.

(** X17: [json_escape] loses nothing: two different strings have
    different escaped forms (reading each backslash pair back recovers
    the string). *)
Theorem json_escape_injective (s1 s2 : string) :
  s1 <> s2 -> json_escape s1 <> json_escape s2.
Proof.
  intros Hne E. apply Hne.
  rewrite <- (json_unescape_escape s1), <- (json_unescape_escape s2).
  now rewrite E.
Qed.

Lemma json_escape_injective_witness :
  str newline <> String backslash "n" /\
  json_escape (str newline) <> json_escape (String backslash "n").
Proof.
  assert (H : str newline <> String backslash "n") by discriminate.
  split; [exact H|]. exact (json_escape_injective _ _ H).
Defined.

Lemma chars_app (s1 s2 : string) : chars (s1 +:+ s2) = chars s1 ++ chars s2.
Proof.
  induction s1 as [|c s1 IH]; [reflexivity|].
  rewrite append_cons. cbn [chars app]. now rewrite IH.
Qed.

Lemma escape_char_printable (c : ascii) :
  ~ In newline (chars (escape_char c)) /\
  ~ In creturn (chars (escape_char c)) /\
  ~ In tab (chars (escape_char c)).
Proof.
  destruct (needs_escape c) eqn:N.
  - apply needs_escape_cases in N as [-> | [-> | [-> | [-> | ->]]]];
      match goal with
      | |- context [escape_char ?c] =>
          let v := eval vm_compute in (chars (escape_char c)) in
          change (chars (escape_char c)) with v
      end;
      repeat split; intros [H|[H|[]]]; discriminate.
  - rewrite (escape_char_plain c N). cbn [str chars].
    unfold needs_escape in N. rewrite !orb_false_iff, !Ascii.eqb_neq in N.
    repeat split; intros [E|[]]; tauto.
Qed.

(** X18: the text returned by [json_escape] holds no newline, no
    carriage return and no tab character. *)
Theorem json_escape_one_line (s : string) :
  ~ In newline (chars (json_escape s)) /\
  ~ In creturn (chars (json_escape s)) /\
  ~ In tab (chars (json_escape s)).
Proof.
  induction s as [|c s IH]; [cbn [json_escape chars In]; tauto|].
  cbn [json_escape]. rewrite chars_app.
  destruct (escape_char_printable c) as (A1 & A2 & A3).
  destruct IH as (B1 & B2 & B3).
  repeat split; intros H%in_app_or; tauto.
Qed.
